(** * Wheel of Fortune (main.py): a shallow embedding and its properties

    The Python program is embedded function by function.  Python [str] values
    are Rocq strings over 8-bit characters (the game alphabet is ASCII), a
    one-character [str] obtained by iterating over a string is [str1 c], the
    [set] of guessed moves is a [gset string], [int] is [Z], and list indices
    are [nat].  Every value returned by the [random] module and by [input] is
    an explicit argument of the function that consumes it. *)

From stdpp Require Import base gmap sets list sorting strings pretty.
From Stdlib Require Import Ascii String ZArith Lia.

Local Open Scope string_scope.

(** ** Python strings *)

Module PyStr.

(** Iterating over a [str] yields its characters in order. *)
Definition chars (s : string) : list ascii := list_ascii_of_string s.

(** The one-character string that iteration produces for a character. *)
Definition str1 (c : ascii) : string := String c "".

(** [sub in s] on two strings: the substring test. *)
Fixpoint str_in (sub s : string) : bool :=
  String.prefix sub s ||
  match s with
  | "" => false
  | String _ s' => str_in sub s'
  end.

(** [s.index(sub)]: lowest index where [sub] occurs, [None] standing for
    the [ValueError] Python raises when there is none. *)
Fixpoint index (sub s : string) : option nat :=
  if String.prefix sub s then Some 0
  else match s with
       | "" => None
       | String _ s' => S <$> index sub s'
       end.

(** The small letters a-z, by their character codes. *)
Definition is_small (c : ascii) : bool :=
  ((97 <=? nat_of_ascii c) && (nat_of_ascii c <=? 122))%nat.

(** [c.upper()] for ASCII text: a-z move to A-Z and every other character
    code stays.  Python also changes letters outside ASCII; those are not
    modelled, so [upper] stands for [str.upper] on ASCII strings. *)
Definition upper_char (c : ascii) : ascii :=
  if is_small c then ascii_of_nat (nat_of_ascii c - 32) else c.

Fixpoint upper (s : string) : string :=
  match s with
  | "" => ""
  | String c s' => String (upper_char c) (upper s')
  end.

(** [''.join(parts)]. *)
Definition join (parts : list string) : string := String.concat "" parts.

(** The capital letters, described by their character codes. *)
Definition is_capital (c : ascii) : bool :=
  ((65 <=? nat_of_ascii c) && (nat_of_ascii c <=? 90))%nat.

End PyStr.
Import PyStr.

(** ** Module constants *)

Definition LETTERS : string := "ABCDEFGHIJKLMNOPQRSTUVWXYZ".
Definition VOWELS : string := "AEIOU".
Definition VOWEL_COST : Z := 250.

(** ** Exceptions and results *)

Inductive exn : Set :=
| IndexError       (* indexing or choosing out of a sequence's range *)
| ValueError       (* WheelResult(type) on an unknown value; no players *)
| KeyError.        (* a dictionary read at a key it does not have *)

(** What running a piece of the program gives: a value, a raised exception,
    or [Blocked] when it is still waiting at [input] or for a random draw
    after every supplied answer has been used. *)
Inductive outcome (A : Type) : Type :=
| Done (a : A)
| Raised (e : exn)
| Blocked.
Arguments Done {A} a.
Arguments Raised {A} e.
Arguments Blocked {A}.

#[global] Instance outcome_ret : MRet outcome := λ A a, Done a.
#[global] Instance outcome_bind : MBind outcome := λ A B k m,
  match m with
  | Done a => k a
  | Raised e => Raised e
  | Blocked => Blocked
  end.

(** ** The [random] module

    [random.choice(seq)] is [seq[r]] for [r] drawn uniformly from
    [range(len(seq))], and raises IndexError on an empty sequence.  The draw
    [r] is an argument; indexing past the end is the IndexError of [seq[r]]. *)
Definition random_choice {A : Type} (seq : list A) (r : nat) : outcome A :=
  match seq !! r with
  | Some x => Done x
  | None => Raised IndexError
  end.

(** The values [random.randint(1, 10)] can return, each equally likely. *)
Definition randint_1_10 : list Z := [1; 2; 3; 4; 5; 6; 7; 8; 9; 10]%Z.

(** ** Wheel segments *)

Inductive WheelResult : Set := BANKRUPT | LOSE_TURN | CASH.

#[global] Instance WheelResult_eq_dec : EqDecision WheelResult.
Proof. solve_decision. Defined.

(** [WheelResult(type)]: lookup of an enumeration member by value. *)
Definition WheelResult_of_value (type : string) : outcome WheelResult :=
  if bool_decide (type = "bankrupt") then Done BANKRUPT
  else if bool_decide (type = "loseturn") then Done LOSE_TURN
  else if bool_decide (type = "cash") then Done CASH
  else Raised ValueError.

Record WheelSegment : Type := mkWheelSegment {
  seg_text : string;
  seg_type : WheelResult;
  seg_value : Z;
  seg_prize : string
}.

(** One record of wheel.json: [value] and [prize] are optional keys. *)
Record RawSegment : Type := mkRawSegment {
  raw_text : string;
  raw_type : string;
  raw_value : option Z;
  raw_prize : option string
}.

(** [WheelSegment.__init__(text, type, value=0, prize='')]. *)
Definition WheelSegment_init (text type : string) (value : Z) (prize : string)
  : outcome WheelSegment :=
  t ← WheelResult_of_value type;
  Done (mkWheelSegment text t value prize).

(** [load_wheel]: one [WheelSegment] built from the keys of each record of
    the decoded file, in order; the first failing constructor aborts.  The
    file is taken as opened and decoded into records that have a text and a
    type and at most the further keys value and prize: a missing file, text
    that is not JSON and records with other keys are not modelled. *)
Definition load_wheel (data : list RawSegment) : outcome (list WheelSegment) :=
  mapM (λ s, WheelSegment_init (raw_text s) (raw_type s)
                   (default 0%Z (raw_value s)) (default "" (raw_prize s))) data.

(** [spin_wheel(wheel)]. *)
Definition spin_wheel (wheel : list WheelSegment) (r : nat) : outcome WheelSegment :=
  random_choice wheel r.

(** ** Phrases *)

(** [get_random_category_and_phrase(phrases)]; the dictionary read from
    phrases.json is its list of items in key order. *)
Definition dict_get {V : Type} (d : list (string * V)) (k : string) : outcome V :=
  match list_find (λ kv, kv.1 = k) d with
  | Some (_, (_, v)) => Done v
  | None => Raised KeyError
  end.

Definition get_random_category_and_phrase
    (phrases : list (string * list string)) (r1 r2 : nat) : outcome (string * string) :=
  category ← random_choice (phrases.*1) r1;
  candidates ← dict_get phrases category;
  chosen ← random_choice candidates r2;
  Done (category, upper chosen).

(** [obscure_phrase(phrase, guessed)]. *)
Definition obscure_char (guessed : gset string) (c : ascii) : string :=
  if str_in (str1 c) LETTERS && bool_decide (str1 c ∉ guessed) then "_" else str1 c.

Definition obscure_phrase (phrase : string) (guessed : gset string) : string :=
  join (obscure_char guessed <$> chars phrase).

(** ** Players *)

Inductive PlayerKind : Type :=
| HumanPlayer
| ComputerPlayer (difficulty : Z).

Record Player : Type := mkPlayer {
  name : string;
  prize_money : Z;
  prizes : gset string;
  kind : PlayerKind
}.

(** [Player.__init__(name)], shared by both subclasses. *)
Definition Player_init (name : string) (kind : PlayerKind) : Player :=
  mkPlayer name 0 ∅ kind.

Definition add_money (amt : Z) (p : Player) : Player :=
  mkPlayer (name p) (prize_money p + amt) (prizes p) (kind p).

Definition go_bankrupt (p : Player) : Player :=
  mkPlayer (name p) 0 (prizes p) (kind p).

Definition add_prize (prize : string) (p : Player) : Player :=
  mkPlayer (name p) (prize_money p) ({[prize]} ∪ prizes p) (kind p).

(** What the outside world hands to one call of [get_move]: the line typed at
    [input] (read by a human player), and the values of
    [random.randint(1, 10)] and of the index drawn by [random.choice] (read
    by a computer player). *)
Record Answer : Type := mkAnswer {
  typed : string;
  coin : Z;
  pick : nat
}.

(** *** ComputerPlayer *)

Definition SORTED_FREQUENCIES : string := "ZQXJKVBPYGFWMUCLDRHSNIOATE".

(** [smart_coin_flip]: [random.randint(1, 10) > self.difficulty]. *)
Definition smart_coin_flip (difficulty : Z) (coin : Z) : bool :=
  (coin >? difficulty)%Z.

(** [get_possible_letters(guessed)]. *)
Definition possible_letter (money : Z) (guessed : gset string) (l : string) : bool :=
  bool_decide (l ∉ guessed) && (negb (str_in l VOWELS) || (VOWEL_COST <=? money)%Z).

Definition get_possible_letters (money : Z) (guessed : gset string) : list string :=
  filter (λ l, possible_letter money guessed l) (str1 <$> chars LETTERS).

(** [sorted(seq, key=...)]: every key is computed first, then the items are
    put in ascending key order, items with equal keys keeping their order. *)
Fixpoint insert_by_key {A : Type} (kx : nat * A) (l : list (nat * A)) : list (nat * A) :=
  match l with
  | [] => [kx]
  | ky :: l' => if (kx.1 <=? ky.1)%nat then kx :: l else ky :: insert_by_key kx l'
  end.

Definition py_sorted {A : Type} (key : A → outcome nat) (l : list A) : outcome (list A) :=
  keys ← mapM key l;
  Done ((foldr insert_by_key [] (zip keys l)).*2).

(** [seq[-1]]. *)
Definition py_last {A : Type} (l : list A) : outcome A :=
  match last l with
  | Some x => Done x
  | None => Raised IndexError
  end.

(** [self.SORTED_FREQUENCIES.index(x)]. *)
Definition frequency_rank (x : string) : outcome nat :=
  match index x SORTED_FREQUENCIES with
  | Some i => Done i
  | None => Raised ValueError
  end.

(** [ComputerPlayer.get_move]; the conditional expression evaluates the coin
    flip first and then only the chosen branch. *)
Definition computer_get_move (money difficulty : Z) (guessed : gset string)
    (a : Answer) : outcome string :=
  let letters_to_guess := get_possible_letters money guessed in
  if bool_decide (letters_to_guess = []) then Done "PASS"
  else if smart_coin_flip difficulty (coin a)
       then s ← py_sorted frequency_rank letters_to_guess; py_last s
       else random_choice letters_to_guess (pick a).

(** [player.get_move(category, obscured_phrase, guessed)], dispatched on the
    player's class.  A human player's board is printed and the typed line is
    returned in capitals. *)
Definition get_move (player : Player) (category obscured_phrase : string)
    (guessed : gset string) (a : Answer) : outcome string :=
  match kind player with
  | HumanPlayer => Done (upper (typed a))
  | ComputerPlayer difficulty =>
      computer_get_move (prize_money player) difficulty guessed a
  end.

(** ** Move validation *)

(** The condition under which [request_player_move] returns the move. *)
Definition move_accepted (player : Player) (guessed : gset string) (move : string) : bool :=
  bool_decide (move ∈ ({["EXIT"; "PASS"]} : gset string))
  || ((String.length move =? 1)%nat && str_in move LETTERS
      && bool_decide (move ∉ guessed)
      && (negb (str_in move VOWELS) || (VOWEL_COST <=? prize_money player)%Z)).

(** [request_player_move(player, category, guessed, phrase)]: the
    [while True] loop asks again after each refused move, one [Answer] per
    call of [get_move]; the unused answers are returned with the move. *)
Fixpoint request_player_move (player : Player) (category : string)
    (guessed : gset string) (phrase : string) (answers : list Answer)
  : outcome (string * list Answer) :=
  match answers with
  | [] => Blocked
  | a :: rest =>
      move ← get_move player category (obscure_phrase phrase guessed) guessed a;
      if move_accepted player guessed move then Done (move, rest)
      else request_player_move player category guessed phrase rest
  end.

(** ** The game loop of [main] *)

(** The local variables of [main] that the loop reads and writes.  [winner]
    refers to a player object of [players], kept as its position. *)
Record GameState : Type := mkGame {
  category : string;
  phrase : string;
  guessed : gset string;
  players : list Player;
  player_index : nat;
  winner : option nat
}.

(** How one pass through the loop body ends: it falls through to the next
    iteration, leaves the loop by [break], or leaves [main] by [return]. *)
Inductive control : Set := Next | Break | Return.

Definition set_guessed (g : gset string) (st : GameState) : GameState :=
  mkGame (category st) (phrase st) g (players st) (player_index st) (winner st).
Definition set_players (ps : list Player) (st : GameState) : GameState :=
  mkGame (category st) (phrase st) (guessed st) ps (player_index st) (winner st).
Definition set_winner (w : option nat) (st : GameState) : GameState :=
  mkGame (category st) (phrase st) (guessed st) (players st) (player_index st) w.

(** [player_index = (player_index + 1) % len(players)], the last statement of
    the body; [players[player_index]] has been read before, so the list is
    not empty there. *)
Definition advance (st : GameState) : GameState :=
  mkGame (category st) (phrase st) (guessed st) (players st)
         ((player_index st + 1) mod List.length (players st)) (winner st).

(** [players[player_index]]. *)
Definition py_index {A : Type} (l : list A) (i : nat) : outcome A :=
  match l !! i with
  | Some x => Done x
  | None => Raised IndexError
  end.

(** One iteration of [while not winner], given the wheel draw [r] and the
    answers available to the prompts of this turn. *)
Definition loop_body (wheel : list WheelSegment) (r : nat) (answers : list Answer)
    (st : GameState) : outcome (control * GameState * list Answer) :=
  player ← py_index (players st) (player_index st);
  wheel_result ← spin_wheel wheel r;
  match seg_type wheel_result with
  | BANKRUPT =>
      Done (Next,
            advance (set_players (<[player_index st := go_bankrupt player]> (players st)) st),
            answers)
  | LOSE_TURN => Done (Next, advance st, answers)
  | CASH =>
      '(move, rest) ← request_player_move player (category st) (guessed st) (phrase st) answers;
      if bool_decide (move = "EXIT") then Done (Return, st, rest)
      else if bool_decide (move = "PASS") then Done (Next, advance st, rest)
      else if (String.length move =? 1)%nat then
        let st1 := set_guessed ({[move]} ∪ guessed st) st in
        if bool_decide (obscure_phrase (phrase st1) (guessed st1) = phrase st1)
        then Done (Break, set_winner (Some (player_index st)) st1, rest)
        else Done (Next, advance st1, rest)
      else if bool_decide (move = phrase st)
        then Done (Break, set_winner (Some (player_index st)) st, rest)
        else Done (Next, advance st, rest)
  end.

(** The set-up of [main] after the console questions: [names] are the human
    players' names, then come [num_computer] computer players. *)
Definition new_players (names : list string) (num_computer : nat) (difficulty : Z)
  : list Player :=
  ((λ n, Player_init n HumanPlayer) <$> names)
  ++ ((λ i, Player_init ("Počítač " +:+ pretty (i + 1)%nat) (ComputerPlayer difficulty))
        <$> seq 0 num_computer).

Definition setup (names : list string) (num_computer : nat) (difficulty : Z)
    (phrases : list (string * list string)) (wheel_data : list RawSegment)
    (r1 r2 : nat) : outcome (GameState * list WheelSegment) :=
  let players := new_players names num_computer difficulty in
  if bool_decide (players = []) then Raised ValueError
  else
    '(category, phrase) ← get_random_category_and_phrase phrases r1 r2;
    wheel ← load_wheel wheel_data;
    Done (mkGame category phrase ∅ players 0 None, wheel).

(** The loop run over a list of turns, each with its wheel draw and its
    answers; the result is where the loop stands after them. *)
Fixpoint play (wheel : list WheelSegment) (turns : list (nat * list Answer))
    (st : GameState) : outcome (control * GameState) :=
  match winner st with
  | Some _ => Done (Break, st)
  | None =>
      match turns with
      | [] => Done (Next, st)
      | (r, answers) :: turns' =>
          '(c, st', _) ← loop_body wheel r answers st;
          match c with
          | Next => play wheel turns' st'
          | _ => Done (c, st')
          end
      end
  end.

(** The configurations the loop can be in, from the state [st0] it starts
    with: a step is one pass through the body while the loop is running. *)
Inductive reachable (wheel : list WheelSegment) (st0 : GameState)
  : control → GameState → Prop :=
| reach_start : reachable wheel st0 Next st0
| reach_step st r answers c st' rest :
    reachable wheel st0 Next st →
    winner st = None →
    loop_body wheel r answers st = Done (c, st', rest) →
    reachable wheel st0 c st'.

(** The state and wheel with which [main] enters the loop. *)
Definition game_start (st : GameState) (wheel : list WheelSegment) : Prop :=
  ∃ names num_computer difficulty phrases wheel_data r1 r2,
    setup names num_computer difficulty phrases wheel_data r1 r2 = Done (st, wheel).

(** ** The console questions of [main] *)

Section console.

(** [int(line)] of the built-in library: the number the line denotes, [None]
    when it raises ValueError. *)
Variable py_int : string → option Z.

(** [get_number_between(prompt, min_val, max_val)]; the prompt is only
    printed, and [lines] are the lines typed at the successive [input]
    calls.  The lines left unread are returned with the number. *)
Fixpoint get_number_between (min_val max_val : Z) (lines : list string)
  : outcome (Z * list string) :=
  match lines with
  | [] => Blocked
  | line :: rest =>
      match py_int line with
      | Some n =>
          if ((min_val <=? n) && (n <=? max_val))%Z then Done (n, rest)
          else get_number_between min_val max_val rest
      | None => get_number_between min_val max_val rest
      end
  end.

(** The comprehension that reads one name per human player. *)
Fixpoint read_names (n : nat) (lines : list string) : outcome (list string * list string) :=
  match n with
  | O => Done ([], lines)
  | S n' =>
      match lines with
      | [] => Blocked
      | line :: rest =>
          '(names, rest') ← read_names n' rest;
          Done (line :: names, rest')
      end
  end.

(** What [main] has asked before it builds the players; [difficulty] is
    [None] when there is no computer player. *)
Record Config : Type := mkConfig {
  cfg_names : list string;
  cfg_num_computer : Z;
  cfg_difficulty : option Z
}.

Definition ask_config (lines : list string) : outcome (Config * list string) :=
  '(num_human, lines1) ← get_number_between 0 10 lines;
  '(names, lines2) ← read_names (Z.to_nat num_human) lines1;
  '(num_computer, lines3) ← get_number_between 0 10 lines2;
  '(difficulty, lines4) ←
    (if (1 <=? num_computer)%Z
     then '(d, l) ← get_number_between 1 10 lines3; Done (Some d, l)
     else Done (None, lines3));
  Done (mkConfig names num_computer difficulty, lines4).

End console.

(** [human_players + computer_players] for the answers of the console; with
    no computer player the difficulty reaches no constructor. *)
Definition config_players (cfg : Config) : list Player :=
  new_players (cfg_names cfg) (Z.to_nat (cfg_num_computer cfg))
              (default 0%Z (cfg_difficulty cfg)).

(** ** Vocabulary of the properties *)

(** The guessed set in which all 26 letters have been guessed. *)
Definition full_alphabet : gset string := list_to_set (str1 <$> chars LETTERS).

(** The character shown on the board for [c]. *)
Definition shown (g : gset string) (c : ascii) : ascii :=
  if is_capital c && bool_decide (str1 c ∉ g) then "_"%char else c.

(** The five vowels; a consonant is a capital letter that is not one. *)
Definition is_vowel (c : ascii) : bool :=
  bool_decide (c ∈ ["A"; "E"; "I"; "O"; "U"]%char).

(** The letters a computer player may propose: not yet guessed, and either
    a consonant or a vowel the player can pay for. *)
Definition eligible (money : Z) (g : gset string) (c : ascii) : Prop :=
  is_capital c ∧ (str1 c ∉ g) ∧ (is_vowel c = false ∨ (250 ≤ money)%Z).

(** The letter-frequency ranking, least frequent first, and the position of
    a letter in it. *)
Definition ranking : list ascii :=
  ["Z"; "Q"; "X"; "J"; "K"; "V"; "B"; "P"; "Y"; "G"; "F"; "W"; "M"; "U"; "C";
   "L"; "D"; "R"; "H"; "S"; "N"; "I"; "O"; "A"; "T"; "E"]%char.

Definition rank (c : ascii) : option nat := fst <$> list_find (eq c) ranking.

(** The HELLO WORLD game: two human players who can pay for vowels, a wheel
    with one cash segment, and the guesses H, E, L, O, W, R, D made turn by
    turn. *)
Definition hello_world_start : GameState :=
  mkGame "Greeting" "HELLO WORLD" ∅
         [mkPlayer "Ann" 500 ∅ HumanPlayer; mkPlayer "Bob" 500 ∅ HumanPlayer] 0 None.

Definition hello_world_wheel : list WheelSegment :=
  [mkWheelSegment "100" CASH 100 ""].

Definition hello_world_guesses : list string := ["H"; "E"; "L"; "O"; "W"; "R"; "D"].

Definition hello_world_turns : list (nat * list Answer) :=
  (λ s, (0%nat, [mkAnswer s 1 0])) <$> hello_world_guesses.

(** The boards before the first guess and after each guess. *)
Definition hello_world_boards : list string :=
  (λ n, obscure_phrase "HELLO WORLD" (list_to_set (take n hello_world_guesses)))
    <$> seq 0 8.

(** A small game as [main] sets it up: one human and one computer player,
    one category with one phrase, and a wheel of two segments. *)
Definition demo_phrases : list (string * list string) :=
  [("Greeting", ["Hello world"])].

Definition demo_wheel_data : list RawSegment :=
  [mkRawSegment "100" "cash" (Some 100%Z) None;
   mkRawSegment "Bankrupt" "bankrupt" None None].

Definition demo_start : GameState :=
  mkGame "Greeting" "HELLO WORLD" ∅ (new_players ["Ann"] 1 5) 0 None.

Definition demo_wheel : list WheelSegment :=
  [mkWheelSegment "100" CASH 100 ""; mkWheelSegment "Bankrupt" BANKRUPT 0 ""].

(** The values of [WheelResult]. *)
Definition wheel_kinds : list string := ["bankrupt"; "loseturn"; "cash"].

(** A line that [get_number_between] does not return on. *)
Definition line_refused (py_int : string → option Z) (min_val max_val : Z)
    (line : string) : Prop :=
  ∀ k, py_int line = Some k → ¬ (min_val ≤ k ≤ max_val)%Z.

(** The 21 consonants as guessed moves. *)
Definition consonant_moves : gset string :=
  list_to_set (filter (λ l, negb (str_in l VOWELS)) (str1 <$> chars LETTERS)).

(** The phrase has a vowel among its characters. *)
Definition has_vowel (p : string) : Prop := ∃ c, c ∈ chars p ∧ is_vowel c = true.

(** The draws of an answer are ones the [random] module can produce for a
    computer player holding [money]: the index is below the number of
    letters to choose from whenever [random.choice] is reached. *)
Definition draws_in_range (money difficulty : Z) (g : gset string) (a : Answer) : Prop :=
  get_possible_letters money g = [] ∨ smart_coin_flip difficulty (coin a) = true ∨
  (pick a < List.length (get_possible_letters money g))%nat.

(** A decimal reader for the small numbers typed at the console. *)
Definition small_int (line : string) : option Z :=
  snd <$> list_find (λ k : Z, pretty k = line) ((λ n : nat, Z.of_nat n) <$> seq 0 100).


(** The effect of a pass through the loop, by cases. *)
Inductive pass_effect (answers : list Answer) (st : GameState) (player : Player)
  : control → GameState → list Answer → Prop :=
| pass_bankrupt :
    pass_effect answers st player Next
      (advance (set_players (<[player_index st := go_bankrupt player]> (players st)) st))
      answers
| pass_lose_turn :
    pass_effect answers st player Next (advance st) answers
| pass_exit rest :
    pass_effect answers st player Return st rest
| pass_pass rest :
    pass_effect answers st player Next (advance st) rest
| pass_letter_win ch rest :
    is_capital ch → str1 ch ∉ guessed st →
    (is_vowel ch = false ∨ (250 ≤ prize_money player)%Z) →
    obscure_phrase (phrase st) ({[str1 ch]} ∪ guessed st) = phrase st →
    pass_effect answers st player Break
      (set_winner (Some (player_index st)) (set_guessed ({[str1 ch]} ∪ guessed st) st))
      rest
| pass_letter ch rest :
    is_capital ch → str1 ch ∉ guessed st →
    (is_vowel ch = false ∨ (250 ≤ prize_money player)%Z) →
    pass_effect answers st player Next
      (advance (set_guessed ({[str1 ch]} ∪ guessed st) st)) rest.

(** A game of two computer players, as [main] sets it up. *)
Definition robots_start : GameState :=
  mkGame "Greeting" "HELLO WORLD" ∅ (new_players [] 2 5) 0 None.

(** The segment that [WheelSegment(...)] builds from a record of the wheel
    file. *)
Definition segment_of_record (s : RawSegment) (seg : WheelSegment) : Prop :=
  seg_text seg = raw_text s ∧
  WheelResult_of_value (raw_type s) = Done (seg_type seg) ∧
  seg_value seg = default 0%Z (raw_value s) ∧
  seg_prize seg = default "" (raw_prize s).

(** * Properties *)

(** ** Strings *)

Lemma str_in_LETTERS (c : ascii) : str_in (str1 c) LETTERS = is_capital c.
Proof. destruct c as [[] [] [] [] [] [] [] []]; reflexivity. Qed.

Lemma join_cons_str1 (c : ascii) (l : list string) :
  join (str1 c :: l) = String c (join l).
Proof. destruct l; reflexivity. Qed.

Lemma obscure_char_shown (g : gset string) (c : ascii) :
  obscure_char g c = str1 (shown g c).
Proof.
  unfold obscure_char, shown. rewrite str_in_LETTERS.
  by destruct (is_capital c && bool_decide (str1 c ∉ g)).
Qed.

Lemma obscure_phrase_cons (c : ascii) (p : string) (g : gset string) :
  obscure_phrase (String c p) g = String (shown g c) (obscure_phrase p g).
Proof.
  unfold obscure_phrase. cbn [chars list_ascii_of_string fmap list_fmap].
  rewrite obscure_char_shown. apply join_cons_str1.
Qed.

Lemma obscure_phrase_length (p : string) (g : gset string) :
  String.length (obscure_phrase p g) = String.length p.
Proof.
  induction p as [|c p IH]; [done|].
  rewrite obscure_phrase_cons. cbn. by rewrite IH.
Qed.

Lemma obscure_phrase_get (p : string) (g : gset string) (i : nat) :
  String.get i (obscure_phrase p g) = shown g <$> String.get i p.
Proof.
  revert i. induction p as [|c p IH]; intros i; [done|].
  rewrite obscure_phrase_cons. destruct i; cbn; [done|apply IH].
Qed.

Lemma elem_of_full_alphabet (c : ascii) : str1 c ∈ full_alphabet ↔ is_capital c.
Proof.
  assert (bool_decide (str1 c ∈ full_alphabet) = is_capital c) as <-
    by (destruct c as [[] [] [] [] [] [] [] []]; vm_compute; reflexivity).
  by rewrite bool_decide_spec.
Qed.

Lemma shown_full_alphabet (c : ascii) : shown full_alphabet c = c.
Proof.
  unfold shown. destruct (is_capital c) eqn:Hc; [|done].
  rewrite bool_decide_eq_false_2; [done|].
  intros Hn. apply Hn, elem_of_full_alphabet. by rewrite Hc.
Qed.

(** C2: obscure_phrase keeps the length of the phrase; at every index it
    shows '_' exactly for a capital letter A-Z that is not in the guessed
    set and the phrase's own character otherwise; with no guesses every
    letter is hidden, and with the whole alphabet guessed the phrase is
    returned as it is. *)
Theorem C2_obscure_phrase_spec (p : string) (g : gset string) :
  String.length (obscure_phrase p g) = String.length p ∧
  (∀ i c, String.get i p = Some c →
     String.get i (obscure_phrase p g) =
       Some (if is_capital c && bool_decide (str1 c ∉ g) then "_"%char else c)) ∧
  (∀ i c, String.get i p = Some c → is_capital c →
     String.get i (obscure_phrase p ∅) = Some "_"%char) ∧
  obscure_phrase p full_alphabet = p.
Proof.
  split; [apply obscure_phrase_length|]. split; [|split].
  - intros i c Hc. by rewrite obscure_phrase_get, Hc.
  - intros i c Hc Hcap. rewrite obscure_phrase_get, Hc. cbn. unfold shown.
    rewrite bool_decide_eq_true_2 by set_solver.
    by destruct (is_capital c).
  - induction p as [|c p IH]; [done|].
    by rewrite obscure_phrase_cons, shown_full_alphabet, IH.
Qed.

(** ** Letters, vowels and the computer's candidates *)

Lemma str_in_VOWELS (c : ascii) : str_in (str1 c) VOWELS = is_vowel c.
Proof. destruct c as [[] [] [] [] [] [] [] []]; vm_compute; reflexivity. Qed.

Lemma frequency_rank_rank (c : ascii) : index (str1 c) SORTED_FREQUENCIES = rank c.
Proof. destruct c as [[] [] [] [] [] [] [] []]; vm_compute; reflexivity. Qed.

Lemma rank_capital (c : ascii) : is_capital c → is_Some (rank c).
Proof.
  destruct c as [[] [] [] [] [] [] [] []]; vm_compute; intros H;
    first [by destruct H | by eexists].
Qed.

Lemma elem_of_letters (l : string) :
  l ∈ (str1 <$> chars LETTERS) ↔ ∃ c, l = str1 c ∧ is_capital c.
Proof.
  rewrite list_elem_of_fmap. split.
  - intros (c & -> & Hin). exists c. split; [done|].
    apply elem_of_full_alphabet. unfold full_alphabet.
    apply elem_of_list_to_set, list_elem_of_fmap. eauto.
  - intros (c & -> & Hc). exists c. split; [done|].
    apply elem_of_full_alphabet in Hc. unfold full_alphabet in Hc.
    apply elem_of_list_to_set, list_elem_of_fmap in Hc as (c' & Heq & Hin).
    by injection Heq as ->.
Qed.

Lemma possible_letter_str1 (money : Z) (g : gset string) (c : ascii) :
  possible_letter money g (str1 c) ↔
  (str1 c ∉ g) ∧ (is_vowel c = false ∨ (250 ≤ money)%Z).
Proof.
  unfold possible_letter, VOWEL_COST. rewrite str_in_VOWELS.
  rewrite andb_True, orb_True, bool_decide_spec, negb_True.
  rewrite (Is_true_true (_ <=? _)%Z), Z.leb_le.
  destruct (is_vowel c); cbn; intuition congruence.
Qed.

Lemma elem_of_get_possible_letters (money : Z) (g : gset string) (l : string) :
  l ∈ get_possible_letters money g ↔ ∃ c, l = str1 c ∧ eligible money g c.
Proof.
  unfold get_possible_letters, eligible.
  rewrite list_elem_of_filter, elem_of_letters. split.
  - intros (Hp & c & -> & Hc). exists c. apply possible_letter_str1 in Hp. tauto.
  - intros (c & -> & Hc & Hp). split; [apply possible_letter_str1; tauto|eauto].
Qed.

Lemma NoDup_get_possible_letters (money : Z) (g : gset string) :
  NoDup (get_possible_letters money g).
Proof.
  apply NoDup_filter. apply (bool_decide_unpack _). by vm_compute.
Qed.

(** ** Move validation *)

Lemma move_accepted_str1 (player : Player) (g : gset string) (c : ascii) :
  move_accepted player g (str1 c) = true ↔
  is_capital c ∧ (str1 c ∉ g) ∧ (is_vowel c = false ∨ (250 ≤ prize_money player)%Z).
Proof.
  unfold move_accepted.
  rewrite (bool_decide_eq_false_2 (str1 c ∈ _))
    by (rewrite elem_of_union, !elem_of_singleton; intros [?|?]; discriminate).
  cbn [orb String.length str1 Nat.eqb andb].
  rewrite str_in_LETTERS. rewrite <- Is_true_true, !andb_True.
  rewrite <- (possible_letter_str1 (prize_money player) g c).
  unfold possible_letter. rewrite andb_True. tauto.
Qed.

Lemma request_player_move_accepted player cat g phrase answers m rest :
  request_player_move player cat g phrase answers = Done (m, rest) →
  move_accepted player g m = true.
Proof.
  induction answers as [|a answers IH]; [done|]. cbn.
  destruct (get_move _ _ _ _ _) as [m'| |]; cbn; try done.
  destruct (move_accepted player g m') eqn:Hacc; [|exact IH].
  by intros [= <- <-].
Qed.

Lemma request_player_move_rejected player cat g phrase a answers m :
  get_move player cat (obscure_phrase phrase g) g a = Done m →
  move_accepted player g m = false →
  request_player_move player cat g phrase (a :: answers)
  = request_player_move player cat g phrase answers.
Proof. intros Hm Hrej. cbn. rewrite Hm. cbn. by rewrite Hrej. Qed.

(** A typed letter of either case reaches the validation as a capital. *)
Lemma human_get_move_letter player cat board g a c :
  kind player = HumanPlayer → typed a = str1 c →
  is_capital c ∨ is_small c →
  ∃ ch, get_move player cat board g a = Done (str1 ch) ∧ is_capital ch.
Proof.
  intros Hk Ht Hc. unfold get_move. rewrite Hk, Ht. cbn.
  exists (upper_char c). split; [done|]. revert Hc.
  destruct c as [[] [] [] [] [] [] [] []]; vm_compute; tauto.
Qed.

(** C4: for a single capital letter that has not been guessed, the
    validation accepts the move exactly when the letter is a consonant, or
    is a vowel and the player holds at least 250; a guessed letter and a
    vowel the player cannot pay for are refused; the prompt loop returns
    only accepted moves, and after a refused move it carries on with the
    next answer as if the refused one had not been given, also seen from the
    game loop, whose state and player are the same. *)
Theorem C4_letter_guess_validation (player : Player) (g : gset string) (ch : ascii) :
  is_capital ch →
  (str1 ch ∉ g →
     (move_accepted player g (str1 ch) = true ↔
      is_vowel ch = false ∨ (is_vowel ch = true ∧ (250 ≤ prize_money player)%Z))) ∧
  (str1 ch ∈ g → move_accepted player g (str1 ch) = false) ∧
  (is_vowel ch = true → (prize_money player < 250)%Z →
     move_accepted player g (str1 ch) = false) ∧
  (∀ cat phrase answers m rest,
     request_player_move player cat g phrase answers = Done (m, rest) →
     move_accepted player g m = true) ∧
  (∀ cat phrase a answers m,
     get_move player cat (obscure_phrase phrase g) g a = Done m →
     move_accepted player g m = false →
     request_player_move player cat g phrase (a :: answers)
     = request_player_move player cat g phrase answers) ∧
  (∀ wheel r seg st a answers m,
     players st !! player_index st = Some player → guessed st = g →
     spin_wheel wheel r = Done seg → seg_type seg = CASH →
     get_move player (category st) (obscure_phrase (phrase st) g) g a = Done m →
     move_accepted player g m = false →
     loop_body wheel r (a :: answers) st = loop_body wheel r answers st).
Proof.
  intros Hcap. repeat split.
  - intros Hacc%move_accepted_str1. destruct (is_vowel ch); intuition.
  - intros Hor. apply move_accepted_str1. destruct (is_vowel ch); intuition.
  - intros Hin. apply not_true_is_false. intros Hacc%move_accepted_str1. tauto.
  - intros Hv Hlt. apply not_true_is_false. intros Hacc%move_accepted_str1.
    destruct Hacc as (_ & _ & [Hc|Hm]); [congruence|lia].
  - intros cat p answers m rest. apply request_player_move_accepted.
  - intros cat p a answers m. apply request_player_move_rejected.
  - intros wheel r seg st a answers m Hpl <- Hspin Hseg Hm Hrej.
    unfold loop_body, py_index. rewrite Hpl, Hspin.
    cbn -[request_player_move]. rewrite Hseg.
    by rewrite (request_player_move_rejected _ _ _ _ _ _ _ Hm Hrej).
Qed.

Lemma C4_letter_guess_validation_witness :
  is_capital "B" ∧
  move_accepted (Player_init "Ann" HumanPlayer) ∅ "B" = true.
Proof.
  split; [exact I|].
  apply (C4_letter_guess_validation (Player_init "Ann" HumanPlayer) ∅ "B" I).
  - apply not_elem_of_empty.
  - left. reflexivity.
Defined.

(** ** The computer player's choice *)

Lemma mapM_Done {A B : Type} (f : A → outcome B) (h : A → B) (l : list A) :
  (∀ x, x ∈ l → f x = Done (h x)) → mapM f l = Done (h <$> l).
Proof.
  induction l as [|a l IH]; intros Hf; [done|]. cbn.
  rewrite (Hf a) by left. cbn.
  rewrite IH by (intros x Hx; apply Hf; by right). done.
Qed.

Lemma zip_fmap_self {A B : Type} (h : A → B) (l : list A) :
  zip (h <$> l) l = (λ x, (h x, x)) <$> l.
Proof. induction l as [|a l IH]; [done|]. cbn. by rewrite IH. Qed.

Section insertion.
Context {A : Type}.
Implicit Types (kx : nat * A) (l : list (nat * A)).

Lemma insert_by_key_perm kx l : insert_by_key kx l ≡ₚ kx :: l.
Proof.
  induction l as [|ky l IH]; [done|]. cbn.
  destruct (kx.1 <=? ky.1)%nat; [done|].
  rewrite IH. apply Permutation_swap.
Qed.

Lemma insert_by_key_sorted kx l :
  StronglySorted (λ x y, (x.1 ≤ y.1)%nat) l →
  StronglySorted (λ x y, (x.1 ≤ y.1)%nat) (insert_by_key kx l).
Proof.
  induction 1 as [|ky l Hs IH Hall]; cbn.
  - by repeat constructor.
  - destruct (kx.1 <=? ky.1)%nat eqn:Hle.
    + apply Nat.leb_le in Hle. constructor; [by constructor|].
      constructor; [done|]. eapply Forall_impl; [exact Hall|].
      cbn. intros; lia.
    + apply Nat.leb_gt in Hle. constructor; [done|].
      rewrite insert_by_key_perm. constructor; [lia|done].
Qed.

Lemma sort_perm l : foldr insert_by_key [] l ≡ₚ l.
Proof.
  induction l as [|kx l IH]; [done|]. cbn.
  by rewrite insert_by_key_perm, IH.
Qed.

Lemma sort_sorted l : StronglySorted (λ x y, (x.1 ≤ y.1)%nat) (foldr insert_by_key [] l).
Proof.
  induction l as [|kx l IH]; cbn; [constructor|by apply insert_by_key_sorted].
Qed.

Lemma sorted_last_max l kx :
  StronglySorted (λ x y, (x.1 ≤ y.1)%nat) l → last l = Some kx →
  ∀ ky, ky ∈ l → (ky.1 ≤ kx.1)%nat.
Proof.
  induction 1 as [|ka l Hs IH Hall]; [done|].
  rewrite last_cons. destruct (last l) as [kz|] eqn:Hlast.
  - intros [= ->] ky [->|Hin]%elem_of_cons; [|by apply IH].
    rewrite Forall_forall in Hall. apply Hall.
    apply last_Some in Hlast as [l' ->]. set_solver.
  - intros [= ->] ky Hin. destruct l; [|by rewrite last_cons in Hlast; destruct (last l)].
    apply list_elem_of_singleton in Hin as ->. done.
Qed.
End insertion.

(** [sorted(l, key=...)[-1]] on a non-empty list whose keys are all defined:
    an item of [l] whose key is the largest. *)
Lemma py_sorted_last {A : Type} (key : A → outcome nat) (h : A → nat) (l : list A) :
  (∀ x, x ∈ l → key x = Done (h x)) → l ≠ [] →
  ∃ x, (s ← py_sorted key l; py_last s) = Done x ∧ x ∈ l ∧ ∀ y, y ∈ l → (h y ≤ h x)%nat.
Proof.
  intros Hkey Hne. unfold py_sorted. rewrite (mapM_Done key h l Hkey). cbn.
  rewrite zip_fmap_self. unfold py_last. rewrite fmap_last.
  set (d := (λ x, (h x, x)) <$> l).
  destruct (last (foldr insert_by_key [] d)) as [[k x]|] eqn:Hlast.
  - pose proof (sorted_last_max _ _ (sort_sorted d) Hlast) as Hmax.
    assert ((k, x) ∈ d) as Hin.
    { rewrite <- (sort_perm d). apply last_Some in Hlast as [l' ->]. set_solver. }
    apply list_elem_of_fmap in Hin as (x' & [= -> ->] & Hx).
    exists x'. cbn. split; [done|]. split; [done|].
    intros y Hy. apply (Hmax (h y, y)).
    rewrite (sort_perm d). apply list_elem_of_fmap. eauto.
  - exfalso. apply last_None in Hlast.
    pose proof (sort_perm d) as Hp. rewrite Hlast in Hp.
    apply Permutation_nil_l in Hp. subst d. by destruct l.
Qed.

Lemma frequency_rank_letter (money : Z) (g : gset string) (l : string) :
  l ∈ get_possible_letters money g →
  frequency_rank l = Done (default 0%nat (index l SORTED_FREQUENCIES)).
Proof.
  intros (c & -> & Hc & _)%elem_of_get_possible_letters.
  unfold frequency_rank. rewrite frequency_rank_rank.
  by destruct (rank_capital c Hc) as [k ->].
Qed.

Lemma get_possible_letters_nil (money : Z) (g : gset string) :
  get_possible_letters money g = [] ↔ ∀ c, ¬ eligible money g c.
Proof.
  split.
  - intros Hnil c Hc.
    assert (str1 c ∈ get_possible_letters money g) as Hin
      by (apply elem_of_get_possible_letters; eauto).
    rewrite Hnil in Hin. by apply elem_of_nil in Hin.
  - intros Hnone. destruct (get_possible_letters money g) as [|l L] eqn:HL; [done|].
    assert (l ∈ get_possible_letters money g) as Hin by (rewrite HL; left).
    apply elem_of_get_possible_letters in Hin as (c & _ & Hc). by destruct (Hnone c).
Qed.

Lemma computer_get_move_pass money difficulty g a :
  get_possible_letters money g = [] →
  computer_get_move money difficulty g a = Done "PASS".
Proof. intros HL. unfold computer_get_move. by rewrite HL. Qed.

Lemma computer_get_move_smart money difficulty g a :
  get_possible_letters money g ≠ [] →
  smart_coin_flip difficulty (coin a) = true →
  ∃ c k, computer_get_move money difficulty g a = Done (str1 c) ∧
         eligible money g c ∧ rank c = Some k ∧
         ∀ c' k', eligible money g c' → rank c' = Some k' → (k' ≤ k)%nat.
Proof.
  intros HL Hsmart. unfold computer_get_move.
  rewrite bool_decide_eq_false_2 by done. rewrite Hsmart.
  destruct (py_sorted_last frequency_rank
              (λ l, default 0%nat (index l SORTED_FREQUENCIES))
              (get_possible_letters money g)) as (x & -> & Hx & Hmax); [|done|].
  { intros l. apply frequency_rank_letter. }
  apply elem_of_get_possible_letters in Hx as (c & -> & Hc).
  destruct (rank_capital c (proj1 Hc)) as [k Hk].
  exists c, k. repeat split; try done; try apply Hc.
  intros c' k' Hc' Hk'.
  assert (str1 c' ∈ get_possible_letters money g) as Hin
    by (apply elem_of_get_possible_letters; eauto).
  apply Hmax in Hin. by rewrite !frequency_rank_rank, Hk, Hk' in Hin.
Qed.

Lemma computer_get_move_random money difficulty g a :
  get_possible_letters money g ≠ [] →
  smart_coin_flip difficulty (coin a) = false →
  computer_get_move money difficulty g a
  = random_choice (get_possible_letters money g) (pick a).
Proof.
  intros HL Hsmart. unfold computer_get_move.
  rewrite bool_decide_eq_false_2 by done. by rewrite Hsmart.
Qed.

Lemma random_choice_Done {A : Type} (l : list A) (r : nat) (x : A) :
  random_choice l r = Done x ↔ l !! r = Some x.
Proof.
  unfold random_choice. destruct (l !! r); split; intros [=]; by subst.
Qed.

Lemma computer_get_move_possible money difficulty g a m :
  computer_get_move money difficulty g a = Done m →
  m = "PASS" ∨ m ∈ get_possible_letters money g.
Proof.
  intros Hm.
  destruct (decide (get_possible_letters money g = [])) as [HL|HL].
  - left. rewrite computer_get_move_pass in Hm by done. by injection Hm.
  - right. destruct (smart_coin_flip difficulty (coin a)) eqn:Hsmart.
    + destruct (computer_get_move_smart money difficulty g a HL Hsmart)
        as (c & k & Hc & Hel & _).
      rewrite Hc in Hm. injection Hm as <-.
      apply elem_of_get_possible_letters. eauto.
    + rewrite computer_get_move_random in Hm by done.
      apply random_choice_Done in Hm. by eapply list_elem_of_lookup_2.
Qed.

(** C5: whatever the guessed set, the money and the random draws, a letter
    returned by the computer player is a capital letter that is not in the
    guessed set and is not a vowel unless the player holds at least 250; and
    when no letter is eligible the computer player returns PASS. *)
Theorem C5_computer_move_safe (money difficulty : Z) (g : gset string) (a : Answer) :
  (∀ m c, computer_get_move money difficulty g a = Done m → m = str1 c →
     is_capital c ∧ (str1 c ∉ g) ∧ (is_vowel c = true → (250 ≤ money)%Z)) ∧
  ((∀ c, ¬ eligible money g c) →
     computer_get_move money difficulty g a = Done "PASS").
Proof.
  split.
  - intros m c Hm ->. apply computer_get_move_possible in Hm as [[=]|Hin].
    apply elem_of_get_possible_letters in Hin as (c' & [= <-] & Hc & Hg & Hv).
    repeat split; [done..|]. intros Hvow. destruct Hv; congruence.
  - intros Hnone. by apply computer_get_move_pass, get_possible_letters_nil.
Qed.

(** C8: with at least one eligible letter, the computer player is smart
    exactly when the draw from 1..10 is strictly greater than its
    difficulty, which for a difficulty in 1..10 is the case for exactly
    10 - difficulty of the ten draws; when smart it returns the eligible
    letter that stands highest in the ranking Z,Q,X,...,A,T,E; when not
    smart it returns the letter at the drawn position of the list of
    eligible letters, a duplicate-free list, so that each eligible letter is
    returned for exactly one of the equally likely draws. *)
Theorem C8_computer_choice (money difficulty : Z) (g : gset string) (a : Answer) :
  (∃ c, eligible money g c) →
  (smart_coin_flip difficulty (coin a) = true ↔ (difficulty < coin a)%Z) ∧
  ((1 ≤ difficulty ≤ 10)%Z →
     Z.of_nat (List.length (filter (λ r, smart_coin_flip difficulty r) randint_1_10))
     = (10 - difficulty)%Z) ∧
  (smart_coin_flip difficulty (coin a) = true →
     ∃ c k, computer_get_move money difficulty g a = Done (str1 c) ∧
            eligible money g c ∧ rank c = Some k ∧
            ∀ c' k', eligible money g c' → rank c' = Some k' → (k' ≤ k)%nat) ∧
  (smart_coin_flip difficulty (coin a) = false →
     ∀ c, eligible money g c →
       ∃ i, (i < List.length (get_possible_letters money g))%nat ∧
         ∀ j, (j < List.length (get_possible_letters money g))%nat →
           (computer_get_move money difficulty g (mkAnswer (typed a) (coin a) j)
            = Done (str1 c) ↔ j = i)).
Proof.
  intros [c0 Hc0].
  assert (get_possible_letters money g ≠ []) as HL.
  { intros Hnil. by eapply get_possible_letters_nil in Hnil. }
  split; [|split; [|split]].
  - unfold smart_coin_flip. rewrite Z.gtb_ltb. apply Z.ltb_lt.
  - intros Hd.
    assert (difficulty ∈ randint_1_10) as Hin.
    { unfold randint_1_10. rewrite !elem_of_cons. lia. }
    unfold randint_1_10 in Hin. rewrite !elem_of_cons in Hin.
    repeat (destruct Hin as [->|Hin]; [reflexivity|]).
    by apply elem_of_nil in Hin.
  - by apply computer_get_move_smart.
  - intros Hsmart c Hc.
    assert (str1 c ∈ get_possible_letters money g) as Hin
      by (apply elem_of_get_possible_letters; eauto).
    apply list_elem_of_lookup in Hin as [i Hi].
    exists i. split; [by eapply lookup_lt_Some|].
    intros j Hj. rewrite computer_get_move_random by done. cbn [pick].
    rewrite random_choice_Done. split; [|by intros ->].
    intros Hjc. eapply NoDup_lookup; [apply NoDup_get_possible_letters|done..].
Qed.

Lemma C8_computer_choice_witness :
  (∃ c, eligible 0 ∅ c) ∧
  ∃ c, computer_get_move 0 3 ∅ (mkAnswer "" 7 0) = Done (str1 c) ∧ rank c = Some 24%nat.
Proof.
  assert (eligible 0 ∅ "T") as HT.
  { split; [exact I|]. split; [apply not_elem_of_empty|by left]. }
  split; [by exists "T"%char|].
  destruct (C8_computer_choice 0 3 ∅ (mkAnswer "" 7 0) (ex_intro _ _ HT))
    as (_ & _ & Hsmart & _).
  destruct (Hsmart eq_refl) as (c & k & Hc & _ & Hk & Hmax).
  exists c. split; [done|].
  vm_compute in Hc. injection Hc as <-. reflexivity.
Defined.

(** ** One pass through the game loop *)

Lemma loop_body_eq wheel r answers st player seg :
  players st !! player_index st = Some player →
  spin_wheel wheel r = Done seg →
  loop_body wheel r answers st =
  match seg_type seg with
  | BANKRUPT =>
      Done (Next,
            advance (set_players (<[player_index st := go_bankrupt player]> (players st)) st),
            answers)
  | LOSE_TURN => Done (Next, advance st, answers)
  | CASH =>
      '(move, rest) ← request_player_move player (category st) (guessed st) (phrase st) answers;
      if bool_decide (move = "EXIT") then Done (Return, st, rest)
      else if bool_decide (move = "PASS") then Done (Next, advance st, rest)
      else if (String.length move =? 1)%nat then
        let st1 := set_guessed ({[move]} ∪ guessed st) st in
        if bool_decide (obscure_phrase (phrase st1) (guessed st1) = phrase st1)
        then Done (Break, set_winner (Some (player_index st)) st1, rest)
        else Done (Next, advance st1, rest)
      else if bool_decide (move = phrase st)
        then Done (Break, set_winner (Some (player_index st)) st, rest)
        else Done (Next, advance st, rest)
  end.
Proof. intros Hp Hs. unfold loop_body, py_index. by rewrite Hp, Hs. Qed.

Lemma loop_body_Done wheel r answers st c st' rest :
  loop_body wheel r answers st = Done (c, st', rest) →
  ∃ player seg, players st !! player_index st = Some player ∧
                spin_wheel wheel r = Done seg.
Proof.
  unfold loop_body, py_index.
  destruct (players st !! player_index st) as [player|]; [|done].
  destruct (spin_wheel wheel r) as [seg| |]; [|done..]. eauto.
Qed.

(** C7: when the segment spun is BANKRUPT, the pass through the loop uses
    none of the answers (no move is asked for), sets the current player's
    money to 0 and keeps that player's name, prizes and class, leaves every
    other player, the category, the phrase, the guessed set and the winner
    as they were, and moves the turn to (player_index + 1) mod the number of
    players. *)
Theorem C7_bankrupt_turn wheel r answers st player seg :
  players st !! player_index st = Some player →
  spin_wheel wheel r = Done seg →
  seg_type seg = BANKRUPT →
  ∃ st' player',
    loop_body wheel r answers st = Done (Next, st', answers) ∧
    players st' !! player_index st = Some player' ∧
    prize_money player' = 0%Z ∧
    name player' = name player ∧ prizes player' = prizes player ∧
    kind player' = kind player ∧
    (∀ i, i ≠ player_index st → players st' !! i = players st !! i) ∧
    List.length (players st') = List.length (players st) ∧
    category st' = category st ∧ phrase st' = phrase st ∧
    guessed st' = guessed st ∧ winner st' = winner st ∧
    player_index st' = ((player_index st + 1) mod List.length (players st))%nat.
Proof.
  intros Hp Hs Hseg. rewrite (loop_body_eq _ _ _ _ _ _ Hp Hs), Hseg.
  eexists _, (go_bankrupt player). split; [reflexivity|]. cbn.
  split; [apply list_lookup_insert_eq; by eapply lookup_lt_Some|].
  repeat split; try done.
  - intros i Hi. by apply list_lookup_insert_ne.
  - apply length_insert.
  - by rewrite length_insert.
Qed.

(** C6: when the accepted move is the single letter ch, the pass through
    the loop adds ch to the guessed set; if the phrase is then shown in
    full the loop is left with the current player as winner, and otherwise
    there is no winner from this pass and the turn moves on.  On the phrase
    HELLO WORLD the boards after the guesses H, E, L, O, W, R, D are the
    ones listed, the game is still running after R, and the guess of D makes
    its player the winner. *)
Theorem C6_letter_guess_and_win :
  (∀ wheel r answers st player seg ch rest,
     players st !! player_index st = Some player →
     spin_wheel wheel r = Done seg →
     seg_type seg = CASH →
     request_player_move player (category st) (guessed st) (phrase st) answers
       = Done (str1 ch, rest) →
     ∃ c st',
       loop_body wheel r answers st = Done (c, st', rest) ∧
       guessed st' = {[str1 ch]} ∪ guessed st ∧
       phrase st' = phrase st ∧ players st' = players st ∧
       (c = Break ∧ winner st' = Some (player_index st)
        ↔ obscure_phrase (phrase st) ({[str1 ch]} ∪ guessed st) = phrase st) ∧
       (c = Next ∧ winner st' = winner st ∧
        player_index st' = ((player_index st + 1) mod List.length (players st))%nat
        ↔ obscure_phrase (phrase st) ({[str1 ch]} ∪ guessed st) ≠ phrase st)) ∧
  hello_world_boards
  = ["_____ _____"; "H____ _____"; "HE___ _____"; "HELL_ ___L_"; "HELLO _O_L_";
     "HELLO WO_L_"; "HELLO WORL_"; "HELLO WORLD"] ∧
  (∃ st, play hello_world_wheel (take 6 hello_world_turns) hello_world_start
           = Done (Next, st) ∧ winner st = None ∧ player_index st = 0%nat) ∧
  (∃ st, play hello_world_wheel hello_world_turns hello_world_start
           = Done (Break, st) ∧ winner st = Some 0%nat ∧
         obscure_phrase (phrase st) (guessed st) = "HELLO WORLD").
Proof.
  split; [|split; [|split]].
  - intros wheel r answers st player seg ch rest Hp Hs Hseg Hreq.
    rewrite (loop_body_eq _ _ _ _ _ _ Hp Hs), Hseg, Hreq.
    cbn -[obscure_phrase].
    rewrite (bool_decide_eq_false_2 (str1 ch = "EXIT")),
            (bool_decide_eq_false_2 (str1 ch = "PASS")) by discriminate.
    destruct (bool_decide_reflect
                (obscure_phrase (phrase st) ({[str1 ch]} ∪ guessed st) = phrase st))
      as [Hwin|Hnowin].
    + eexists _, _. split; [reflexivity|]. cbn.
      repeat split; try done. by intros [[=] _].
    + eexists _, _. split; [reflexivity|]. cbn.
      repeat split; try done. by intros [[=] _].
  - vm_compute. reflexivity.
  - eexists. split; [vm_compute; reflexivity|]. by split.
  - eexists. split; [vm_compute; reflexivity|]. split; [done|]. vm_compute. reflexivity.
Qed.

Lemma C7_bankrupt_turn_witness :
  spin_wheel [mkWheelSegment "Bankrupt" BANKRUPT 0 ""] 0 = Done (mkWheelSegment "Bankrupt" BANKRUPT 0 "") ∧
  ∃ st', loop_body [mkWheelSegment "Bankrupt" BANKRUPT 0 ""] 0 [mkAnswer "H" 1 0]
           hello_world_start = Done (Next, st', [mkAnswer "H" 1 0]) ∧
         prize_money <$> players st' = [0%Z; 500%Z] ∧ player_index st' = 1%nat.
Proof.
  split; [reflexivity|].
  destruct (C7_bankrupt_turn
              [mkWheelSegment "Bankrupt" BANKRUPT 0 ""] 0 [mkAnswer "H" 1 0]
              hello_world_start (mkPlayer "Ann" 500 ∅ HumanPlayer)
              (mkWheelSegment "Bankrupt" BANKRUPT 0 "") eq_refl eq_refl eq_refl)
    as (st' & player' & Hbody & _).
  exists st'. split; [exact Hbody|].
  vm_compute in Hbody. injection Hbody as <-. split; reflexivity.
Defined.

(** ** Invariants of the game loop *)

Lemma loop_body_frame wheel r answers st c st' rest :
  loop_body wheel r answers st = Done (c, st', rest) →
  category st' = category st ∧ phrase st' = phrase st ∧
  guessed st ⊆ guessed st' ∧
  (Forall (λ p, prize_money p = 0%Z) (players st) →
   Forall (λ p, prize_money p = 0%Z) (players st')).
Proof.
  intros Hbody.
  destruct (loop_body_Done _ _ _ _ _ _ _ Hbody) as (player & seg & Hp & Hs).
  rewrite (loop_body_eq _ _ _ _ _ _ Hp Hs) in Hbody.
  destruct (seg_type seg).
  - injection Hbody as <- <- <-. cbn. repeat split; try done.
    intros Hall. by apply Forall_insert.
  - injection Hbody as <- <- <-. by cbn.
  - destruct (request_player_move _ _ _ _ _) as [[move rest']| |]; [|done..].
    cbn -[obscure_phrase] in Hbody.
    repeat case_match; injection Hbody as <- <- <-; cbn;
      repeat split; try done; set_solver.
Qed.

Lemma reachable_invariant wheel st0 c st :
  reachable wheel st0 c st →
  category st = category st0 ∧ phrase st = phrase st0 ∧
  guessed st0 ⊆ guessed st ∧
  (Forall (λ p, prize_money p = 0%Z) (players st0) →
   Forall (λ p, prize_money p = 0%Z) (players st)).
Proof.
  induction 1 as [|st r answers c st' rest _ IH _ Hbody]; [done|].
  apply loop_body_frame in Hbody.
  destruct IH as (Hc & Hp & Hg & Hm). destruct Hbody as (Hc' & Hp' & Hg' & Hm').
  repeat split; [congruence|congruence|set_solver|tauto].
Qed.

Lemma new_players_money names num_computer difficulty :
  Forall (λ p, prize_money p = 0%Z) (new_players names num_computer difficulty).
Proof.
  unfold new_players. apply Forall_app. split; apply Forall_fmap, Forall_forall; done.
Qed.

Lemma setup_Done names num_computer difficulty phrases wheel_data r1 r2 st0 wheel :
  setup names num_computer difficulty phrases wheel_data r1 r2 = Done (st0, wheel) →
  ∃ cat ph,
    get_random_category_and_phrase phrases r1 r2 = Done (cat, ph) ∧
    load_wheel wheel_data = Done wheel ∧
    new_players names num_computer difficulty ≠ [] ∧
    st0 = mkGame cat ph ∅ (new_players names num_computer difficulty) 0 None.
Proof.
  unfold setup. case_bool_decide as Hne; [done|].
  destruct (get_random_category_and_phrase phrases r1 r2) as [[cat ph]| |]; [|done..].
  cbn. destruct (load_wheel wheel_data) as [w| |]; [|done..].
  cbn. intros [= <- <-]. eauto 10.
Qed.

Lemma game_start_money st0 wheel :
  game_start st0 wheel → Forall (λ p, prize_money p = 0%Z) (players st0).
Proof.
  intros (names & nc & d & phrases & data & r1 & r2 & Hsetup).
  apply setup_Done in Hsetup as (cat & ph & _ & _ & _ & ->).
  apply new_players_money.
Qed.

Lemma no_money_no_vowel player cat g phrase answers m rest ch :
  prize_money player = 0%Z →
  request_player_move player cat g phrase answers = Done (m, rest) →
  m = str1 ch → is_vowel ch = false.
Proof.
  intros Hmoney Hreq ->. apply request_player_move_accepted in Hreq.
  apply move_accepted_str1 in Hreq as (_ & _ & [Hc|Hm]); [done|lia].
Qed.

(** C3: in every state the game loop reaches from the start of a game, each
    player's prize money is 0, whatever the wheel holds and whatever is
    answered: players are created with 0, going bankrupt gives 0, and no
    pass through the loop adds money.  So no player ever meets the vowel
    cost, and no move returned by the prompt loop for a player of such a
    state is a vowel. *)
Theorem C3_money_stays_zero st0 wheel c st :
  game_start st0 wheel →
  reachable wheel st0 c st →
  Forall (λ p, prize_money p = 0%Z) (players st) ∧
  (∀ p, prize_money (go_bankrupt p) = 0%Z) ∧
  (∀ name kind, prize_money (Player_init name kind) = 0%Z) ∧
  (∀ player, player ∈ players st →
     (prize_money player < VOWEL_COST)%Z ∧
     ∀ cat g phrase answers m rest ch,
       request_player_move player cat g phrase answers = Done (m, rest) →
       m = str1 ch → is_vowel ch = false).
Proof.
  intros Hstart Hreach.
  assert (Forall (λ p, prize_money p = 0%Z) (players st)) as Hall.
  { by apply (reachable_invariant _ _ _ _ Hreach), game_start_money with wheel. }
  repeat split; try done.
  - rewrite Forall_forall in Hall. by rewrite (Hall player).
  - rewrite Forall_forall in Hall. intros cat g phrase answers m rest ch.
    apply no_money_no_vowel. by apply Hall.
Qed.

Lemma demo_setup :
  setup ["Ann"] 1 5 demo_phrases demo_wheel_data 0 0 = Done (demo_start, demo_wheel).
Proof. vm_compute. reflexivity. Qed.

Lemma demo_first_turn :
  loop_body demo_wheel 0 [mkAnswer "h" 1 0] demo_start
  = Done (Next, advance (set_guessed {["H"]} demo_start), []).
Proof. vm_compute. reflexivity. Qed.

Lemma C3_money_stays_zero_witness :
  game_start demo_start demo_wheel ∧
  reachable demo_wheel demo_start Next (advance (set_guessed {["H"]} demo_start)) ∧
  Forall (λ p, prize_money p = 0%Z)
         (players (advance (set_guessed {["H"]} demo_start))).
Proof.
  assert (game_start demo_start demo_wheel) as Hstart.
  { exists ["Ann"], 1%nat, 5%Z, demo_phrases, demo_wheel_data, 0%nat, 0%nat.
    exact demo_setup. }
  assert (reachable demo_wheel demo_start Next (advance (set_guessed {["H"]} demo_start)))
    as Hreach.
  { eapply reach_step; [apply reach_start|reflexivity|exact demo_first_turn]. }
  split; [exact Hstart|]. split; [exact Hreach|].
  exact (proj1 (C3_money_stays_zero _ _ _ _ Hstart Hreach)).
Defined.

Lemma dict_get_Done {V : Type} (d : list (string * V)) (k : string) (v : V) :
  dict_get d k = Done v → (k, v) ∈ d.
Proof.
  unfold dict_get. destruct (list_find _ d) as [[i [k' v']]|] eqn:Hfind; [|done].
  intros [= ->]. apply list_find_Some in Hfind as (Hi & Hk & _). cbn in Hk. subst k'.
  by eapply list_elem_of_lookup_2.
Qed.

(** C10: whatever state the game loop starts from, and so for the phrase
    that the set-up has chosen and put in capitals, the phrase is the same
    string in every state the loop reaches, and the guessed set contains all
    that was guessed at the start; every pass through the loop keeps the
    phrase and ends with a guessed set that contains the one it began
    with. *)
Theorem C10_phrase_fixed_guessed_grows wheel st0 c st :
  reachable wheel st0 c st →
  phrase st = phrase st0 ∧
  guessed st0 ⊆ guessed st ∧
  ∀ r answers c' st' rest,
    loop_body wheel r answers st = Done (c', st', rest) →
    phrase st' = phrase st ∧ guessed st ⊆ guessed st'.
Proof.
  intros Hreach.
  destruct (reachable_invariant _ _ _ _ Hreach) as (_ & Hp & Hg & _).
  split; [done|]. split; [done|].
  intros r answers c' st' rest Hbody. apply loop_body_frame in Hbody. tauto.
Qed.

Lemma C10_phrase_fixed_guessed_grows_witness :
  reachable demo_wheel demo_start Next (advance (set_guessed {["H"]} demo_start)) ∧
  phrase (advance (set_guessed {["H"]} demo_start)) = phrase demo_start ∧
  guessed demo_start ⊆ guessed (advance (set_guessed {["H"]} demo_start)).
Proof.
  assert (reachable demo_wheel demo_start Next (advance (set_guessed {["H"]} demo_start)))
    as Hreach.
  { eapply reach_step; [apply reach_start|reflexivity|exact demo_first_turn]. }
  split; [exact Hreach|].
  destruct (C10_phrase_fixed_guessed_grows _ _ _ _ Hreach) as (Hp & Hg & _).
  split; [exact Hp|exact Hg].
Defined.

(** ** Guessing the whole phrase *)

Lemma long_move_refused (player : Player) (g : gset string) (m : string) :
  m ≠ "EXIT" → m ≠ "PASS" → String.length m ≠ 1%nat →
  move_accepted player g m = false.
Proof.
  intros He Hp Hlen. unfold move_accepted.
  rewrite (bool_decide_eq_false_2 (m ∈ _))
    by (rewrite elem_of_union, !elem_of_singleton; tauto).
  apply Nat.eqb_neq in Hlen. by rewrite Hlen.
Qed.

Lemma win_only_by_letters wheel r answers st st' rest :
  loop_body wheel r answers st = Done (Break, st', rest) →
  obscure_phrase (phrase st') (guessed st') = phrase st'.
Proof.
  intros Hbody.
  destruct (loop_body_Done _ _ _ _ _ _ _ Hbody) as (player & seg & Hp & Hs).
  rewrite (loop_body_eq _ _ _ _ _ _ Hp Hs) in Hbody.
  destruct (seg_type seg); [done..|].
  destruct (request_player_move _ _ _ _ _) as [[move rest']| |] eqn:Hreq; [|done..].
  apply request_player_move_accepted in Hreq.
  cbn -[obscure_phrase] in Hbody.
  case_bool_decide as He; [done|]. case_bool_decide as Hpass; [done|].
  destruct (String.length move =? 1)%nat eqn:Hlen.
  - cbn -[obscure_phrase] in Hbody. case_bool_decide as Hwin; [|done].
    injection Hbody as <- <-. exact Hwin.
  - apply Nat.eqb_neq in Hlen.
    by rewrite long_move_refused in Hreq.
Qed.

(** C1 (the code differs): a human player who types the whole phrase
    HELLO WORLD gets it refused by the validation like any other move that is
    neither EXIT, PASS nor a single letter; the prompt loop asks again, the
    pass through the game loop does not end on that answer, and whenever a
    pass through the loop ends with a winner the phrase has been revealed
    letter by letter. *)
Theorem C1_full_phrase_guess_refused :
  get_move (Player_init "Ann" HumanPlayer) "Greeting"
           (obscure_phrase "HELLO WORLD" ∅) ∅ (mkAnswer "hello world" 1 0)
    = Done "HELLO WORLD" ∧
  move_accepted (Player_init "Ann" HumanPlayer) ∅ "HELLO WORLD" = false ∧
  (∀ more,
     request_player_move (Player_init "Ann" HumanPlayer) "Greeting" ∅ "HELLO WORLD"
                         (mkAnswer "hello world" 1 0 :: more)
     = request_player_move (Player_init "Ann" HumanPlayer) "Greeting" ∅ "HELLO WORLD"
                           more) ∧
  loop_body demo_wheel 0 [mkAnswer "hello world" 1 0] demo_start = Blocked ∧
  (∀ player g m, m ≠ "EXIT" → m ≠ "PASS" → String.length m ≠ 1%nat →
     move_accepted player g m = false) ∧
  (∀ wheel r answers st st' rest,
     loop_body wheel r answers st = Done (Break, st', rest) →
     obscure_phrase (phrase st') (guessed st') = phrase st').
Proof.
  split; [reflexivity|]. split; [reflexivity|]. split; [|split; [|split]].
  - intros more. by apply request_player_move_rejected with "HELLO WORLD".
  - vm_compute. reflexivity.
  - apply long_move_refused.
  - apply win_only_by_letters.
Qed.

(** ** The wheel *)

Lemma WheelResult_of_value_kinds (type : string) :
  (type ∈ wheel_kinds → ∃ k, WheelResult_of_value type = Done k) ∧
  (type ∉ wheel_kinds → WheelResult_of_value type = Raised ValueError).
Proof.
  unfold WheelResult_of_value, wheel_kinds. rewrite !elem_of_cons, elem_of_nil.
  repeat case_bool_decide; split; intros; eauto; tauto.
Qed.

Lemma WheelSegment_init_known text type value prize :
  type ∈ wheel_kinds →
  ∃ k, WheelSegment_init text type value prize = Done (mkWheelSegment text k value prize).
Proof.
  intros Hok. unfold WheelSegment_init.
  destruct (proj1 (WheelResult_of_value_kinds _) Hok) as [k ->]. by exists k.
Qed.

Lemma WheelSegment_init_unknown text type value prize :
  type ∉ wheel_kinds → WheelSegment_init text type value prize = Raised ValueError.
Proof.
  intros Hbad. unfold WheelSegment_init.
  by rewrite (proj2 (WheelResult_of_value_kinds _) Hbad).
Qed.

Lemma mapM_outcome_cons {A B : Type} (f : A → outcome B) (a : A) (l : list A) :
  mapM f (a :: l) = b ← f a; bs ← mapM f l; mret (b :: bs).
Proof. reflexivity. Qed.

Lemma load_wheel_bad_kind (data : list RawSegment) :
  (∃ s, s ∈ data ∧ raw_type s ∉ wheel_kinds) →
  load_wheel data = Raised ValueError.
Proof.
  unfold load_wheel. induction data as [|s data IH]; intros (s' & Hin & Hbad).
  - by apply elem_of_nil in Hin.
  - rewrite mapM_outcome_cons.
    destruct (decide (raw_type s ∈ wheel_kinds)) as [Hok|Hno].
    + destruct (WheelSegment_init_known (raw_text s) _ (default 0%Z (raw_value s))
                  (default "" (raw_prize s)) Hok) as [k ->].
      apply elem_of_cons in Hin as [->|Hin]; [done|].
      rewrite IH by eauto. done.
    + by rewrite WheelSegment_init_unknown.
Qed.

(** C9, counterexample: a wheel whose only segment has the value -5 is
    loaded and spun without any failure. *)
Lemma C9_negative_value_counterexample :
  load_wheel [mkRawSegment "Minus" "cash" (Some (-5)%Z) None]
    = Done [mkWheelSegment "Minus" CASH (-5) ""] ∧
  (seg_value (mkWheelSegment "Minus" CASH (-5) "") < 0)%Z ∧
  spin_wheel [mkWheelSegment "Minus" CASH (-5) ""] 0
    = Done (mkWheelSegment "Minus" CASH (-5) "").
Proof. repeat split. Qed.

(** C9, amended: spinning an empty wheel raises IndexError; a segment whose
    kind is not bankrupt, loseturn or cash is refused with ValueError when
    the segment is built, so that loading a wheel with such a record fails;
    for a known kind the segment is built with whatever value is given,
    negative ones included; and on a non-empty wheel the spin returns the
    segment at the drawn position, one position per equally likely draw. *)
Theorem C9_spin_wheel_amended :
  (∀ r, spin_wheel [] r = Raised IndexError) ∧
  (∀ text type value prize, type ∉ wheel_kinds →
     WheelSegment_init text type value prize = Raised ValueError) ∧
  (∀ data, (∃ s, s ∈ data ∧ raw_type s ∉ wheel_kinds) →
     load_wheel data = Raised ValueError) ∧
  (∀ text type value prize, type ∈ wheel_kinds →
     ∃ k, WheelSegment_init text type value prize
          = Done (mkWheelSegment text k value prize)) ∧
  (∀ wheel r, (r < List.length wheel)%nat →
     ∃ seg, spin_wheel wheel r = Done seg ∧ wheel !! r = Some seg).
Proof.
  split; [done|]. split; [|split; [|split]].
  - apply WheelSegment_init_unknown.
  - apply load_wheel_bad_kind.
  - apply WheelSegment_init_known.
  - intros wheel r Hr. apply lookup_lt_is_Some in Hr as [seg Hseg].
    exists seg. split; [|done]. by apply random_choice_Done.
Qed.

(** * Further properties of the program *)

(** ** The console questions *)

Section console_facts.
Variable py_int : string → option Z.
Implicit Types (lines skipped : list string).

Lemma get_number_between_skip min_val max_val line lines :
  line_refused py_int min_val max_val line →
  get_number_between py_int min_val max_val (line :: lines)
  = get_number_between py_int min_val max_val lines.
Proof.
  intros Href. cbn. destruct (py_int line) as [k|] eqn:Hk; [|done].
  destruct ((min_val <=? k) && (k <=? max_val))%Z eqn:Hin; [|done].
  destruct (Href k Hk). lia.
Qed.

Lemma get_number_between_take min_val max_val line lines n :
  py_int line = Some n → (min_val ≤ n ≤ max_val)%Z →
  get_number_between py_int min_val max_val (line :: lines) = Done (n, lines).
Proof.
  intros Hn Hin. cbn. rewrite Hn.
  by replace ((min_val <=? n) && (n <=? max_val))%Z with true by lia.
Qed.

Lemma get_number_between_Done min_val max_val lines n rest :
  get_number_between py_int min_val max_val lines = Done (n, rest) →
  ∃ skipped line,
    lines = (skipped ++ line :: rest)%list ∧ py_int line = Some n ∧
    (min_val ≤ n ≤ max_val)%Z ∧
    Forall (line_refused py_int min_val max_val) skipped.
Proof.
  induction lines as [|line lines IH]; [done|].
  destruct (py_int line) as [k|] eqn:Hk.
  - destruct (decide (min_val ≤ k ≤ max_val)%Z) as [Hin|Hout].
    + rewrite (get_number_between_take _ _ _ _ _ Hk Hin). intros [= <- <-].
      by exists [], line.
    + rewrite get_number_between_skip by (intros k' Hk'; congruence).
      intros (skipped & line' & -> & ? & ? & ?)%IH.
      exists (line :: skipped), line'. do 3 (split; [done|]).
      constructor; [intros k' Hk'; congruence|done].
  - rewrite get_number_between_skip by (intros k' Hk'; congruence).
    intros (skipped & line' & -> & ? & ? & ?)%IH.
    exists (line :: skipped), line'. do 3 (split; [done|]).
    constructor; [intros k' Hk'; congruence|done].
Qed.

(** X1: get_number_between returns exactly the first typed line that reads
    as a number within the bounds, together with the lines after it; every
    line before it is either not a number or out of bounds.  It keeps
    waiting exactly when no typed line qualifies, and it never raises. *)
Theorem X1_get_number_between_spec min_val max_val lines :
  (∀ n rest,
     get_number_between py_int min_val max_val lines = Done (n, rest) ↔
     ∃ skipped line,
       lines = (skipped ++ line :: rest)%list ∧ py_int line = Some n ∧
       (min_val ≤ n ≤ max_val)%Z ∧
       Forall (line_refused py_int min_val max_val) skipped) ∧
  (get_number_between py_int min_val max_val lines = Blocked ↔
   Forall (line_refused py_int min_val max_val) lines) ∧
  (∀ e, get_number_between py_int min_val max_val lines ≠ Raised e).
Proof.
  split; [|split].
  - intros n rest. split; [apply get_number_between_Done|].
    intros (skipped & line & -> & Hn & Hin & Hskip).
    induction Hskip as [|l skipped Hl _ IH]; cbn [app].
    + by apply get_number_between_take.
    + by rewrite get_number_between_skip.
  - split.
    + induction lines as [|line lines IH]; [done|]. intros Hb.
      assert (line_refused py_int min_val max_val line) as Href.
      { intros k Hk Hin. by rewrite (get_number_between_take _ _ _ _ _ Hk Hin) in Hb. }
      rewrite get_number_between_skip in Hb by done. constructor; auto.
    + induction 1 as [|line lines Href _ IH]; [done|].
      by rewrite get_number_between_skip.
  - intros e. induction lines as [|line lines IH]; [done|]. cbn.
    destruct (py_int line) as [k|]; [|done].
    by destruct ((min_val <=? k) && (k <=? max_val))%Z.
Qed.

Lemma read_names_Done n lines names rest :
  read_names n lines = Done (names, rest) →
  List.length names = n ∧ lines = (names ++ rest)%list.
Proof.
  revert lines names rest. induction n as [|n IH]; intros lines names rest; cbn.
  - by intros [= <- <-].
  - destruct lines as [|line lines]; [done|].
    destruct (read_names n lines) as [[names' rest']| |] eqn:Hrd; [|done..].
    cbn. intros [= <- <-]. destruct (IH _ _ _ Hrd) as [<- ->]. done.
Qed.

Lemma ask_config_Done lines cfg rest :
  ask_config py_int lines = Done (cfg, rest) →
  (List.length (cfg_names cfg) ≤ 10)%nat ∧
  (0 ≤ cfg_num_computer cfg ≤ 10)%Z ∧
  (cfg_difficulty cfg = None ↔ cfg_num_computer cfg = 0%Z) ∧
  (∀ d, cfg_difficulty cfg = Some d → (1 ≤ d ≤ 10)%Z).
Proof.
  unfold ask_config.
  destruct (get_number_between py_int 0 10 lines) as [[nh l1]| |] eqn:Hnh; [|done..].
  apply get_number_between_Done in Hnh as (_ & _ & _ & _ & Hnh & _). cbn.
  destruct (read_names (Z.to_nat nh) l1) as [[names l2]| |] eqn:Hnames; [|done..].
  apply read_names_Done in Hnames as [Hlen _]. cbn.
  destruct (get_number_between py_int 0 10 l2) as [[nc l3]| |] eqn:Hnc; [|done..].
  apply get_number_between_Done in Hnc as (_ & _ & _ & _ & Hnc & _). cbn.
  destruct (1 <=? nc)%Z eqn:Hone.
  - destruct (get_number_between py_int 1 10 l3) as [[d l4]| |] eqn:Hd; [|done..].
    apply get_number_between_Done in Hd as (_ & _ & _ & _ & Hd & _). cbn.
    intros [= <- <-]. cbn. split; [lia|]. split; [lia|].
    split; [split; [done|lia]|]. by intros d' [= <-].
  - cbn. intros [= <- <-]. cbn. split; [lia|]. split; [lia|].
    split; [split; [lia|done]|done].
Qed.

End console_facts.

(** X2: when the console questions have been answered, there are at most 10
    human names and at most 10 computer players, a difficulty has been asked
    exactly when there is a computer player and then lies in 1..10; so main
    builds at most 20 players, each starting with no money and no prizes,
    and every computer player's difficulty is within 1..10. *)
Theorem X2_ask_config_players py_int lines cfg rest :
  ask_config py_int lines = Done (cfg, rest) →
  (List.length (cfg_names cfg) ≤ 10)%nat ∧
  (0 ≤ cfg_num_computer cfg ≤ 10)%Z ∧
  (cfg_difficulty cfg = None ↔ cfg_num_computer cfg = 0%Z) ∧
  (List.length (config_players cfg)
   = List.length (cfg_names cfg) + Z.to_nat (cfg_num_computer cfg))%nat ∧
  (List.length (config_players cfg) ≤ 20)%nat ∧
  (∀ p, p ∈ config_players cfg →
     prize_money p = 0%Z ∧ prizes p = ∅ ∧
     (kind p = HumanPlayer ∨ ∃ d, kind p = ComputerPlayer d ∧ (1 ≤ d ≤ 10)%Z)).
Proof.
  intros (Hnames & Hnc & Hnone & Hd)%ask_config_Done.
  assert (List.length (config_players cfg)
          = List.length (cfg_names cfg) + Z.to_nat (cfg_num_computer cfg))%nat as Hlen.
  { unfold config_players, new_players.
    by rewrite length_app, !length_fmap, length_seq. }
  do 3 (split; [done|]). split; [done|]. split; [lia|].
  intros p Hp. unfold config_players, new_players in Hp.
  apply elem_of_app in Hp as [(n & -> & _)%list_elem_of_fmap|(i & -> & Hi)%list_elem_of_fmap].
  - do 2 (split; [done|]). by left.
  - do 2 (split; [done|]). right. apply elem_of_seq in Hi.
    destruct (cfg_difficulty cfg) as [d|] eqn:Hdiff.
    + exists d. split; [done|]. by apply Hd.
    + pose proof (proj1 Hnone eq_refl). lia.
Qed.

Lemma X2_ask_config_players_witness :
  ask_config small_int ["12"; "1"; "Ann"; "2"; "0"; "5"; "h"]
    = Done (mkConfig ["Ann"] 2 (Some 5%Z), ["h"]) ∧
  (List.length (config_players (mkConfig ["Ann"] 2 (Some 5%Z))) ≤ 20)%nat.
Proof.
  assert (ask_config small_int ["12"; "1"; "Ann"; "2"; "0"; "5"; "h"]
          = Done (mkConfig ["Ann"] 2 (Some 5%Z), ["h"])) as Hcfg
    by (vm_compute; reflexivity).
  split; [exact Hcfg|].
  apply (X2_ask_config_players small_int _ _ _ Hcfg).
Defined.

(** ** The board *)

Lemma shown_fixed (g : gset string) (c : ascii) :
  shown g c = c ↔ (is_capital c → str1 c ∈ g).
Proof.
  unfold shown. destruct (is_capital c) eqn:Hcap; cbn; [|tauto].
  case_bool_decide as Hin; cbn.
  - split; [intros <-; vm_compute in Hcap; discriminate|tauto].
  - done.
Qed.

Lemma shown_insert (g : gset string) (c x : ascii) :
  shown ({[str1 c]} ∪ g) x = if bool_decide (x = c) then c else shown g x.
Proof.
  unfold shown. destruct (decide (x = c)) as [->|Hx].
  - rewrite (bool_decide_eq_true_2 (c = c)) by done.
    rewrite (bool_decide_eq_false_2 (str1 c ∉ _)) by set_solver.
    by rewrite andb_false_r.
  - rewrite (bool_decide_eq_false_2 (x = c)) by done.
    assert (str1 x ≠ str1 c) by (intros [= ->]; done).
    by rewrite (bool_decide_ext (str1 x ∉ {[str1 c]} ∪ g) (str1 x ∉ g))
      by (rewrite elem_of_union, elem_of_singleton; tauto).
Qed.

Lemma obscure_phrase_win_iff (p : string) (g : gset string) :
  obscure_phrase p g = p ↔ ∀ c, c ∈ chars p → is_capital c → str1 c ∈ g.
Proof.
  induction p as [|x p IH].
  - split; [|done]. intros _ c Hc. by apply elem_of_nil in Hc.
  - rewrite obscure_phrase_cons. cbn [chars list_ascii_of_string]. split.
    + intros [= Hx Hp] c [->|Hc]%elem_of_cons.
      * by apply shown_fixed.
      * by apply IH.
    + intros Hall. f_equal.
      * apply shown_fixed, Hall. by left.
      * apply IH. intros c Hc. apply Hall. by right.
Qed.

(** X3: the test that ends the game, obscure_phrase(phrase, guessed) ==
    phrase, holds exactly when every capital letter occurring in the phrase
    is in the guessed set; in particular more guesses never undo it. *)
Theorem X3_obscure_phrase_win_test (p : string) (g : gset string) :
  (obscure_phrase p g = p ↔ ∀ c, c ∈ chars p → is_capital c → str1 c ∈ g) ∧
  (∀ g', g ⊆ g' → obscure_phrase p g = p → obscure_phrase p g' = p).
Proof.
  split; [apply obscure_phrase_win_iff|].
  intros g' Hsub Hwin. apply obscure_phrase_win_iff. intros c Hc Hcap.
  apply Hsub. by apply (proj1 (obscure_phrase_win_iff p g) Hwin).
Qed.

(** X4: adding the letter c to the guessed set changes the board at exactly
    the places where the phrase has c, which now show c; every other place
    shows what it showed before, and a letter that does not occur in the
    phrase leaves the board as it was. *)
Theorem X4_obscure_phrase_reveal (p : string) (g : gset string) (c : ascii) :
  (∀ i, String.get i (obscure_phrase p ({[str1 c]} ∪ g))
        = (λ x, if bool_decide (x = c) then c else shown g x) <$> String.get i p) ∧
  (c ∉ chars p → obscure_phrase p ({[str1 c]} ∪ g) = obscure_phrase p g).
Proof.
  split.
  - intros i. rewrite obscure_phrase_get.
    destruct (String.get i p); cbn; [|done]. by rewrite shown_insert.
  - induction p as [|x p IH]; [done|]. cbn [chars list_ascii_of_string].
    intros Hnot. apply not_elem_of_cons in Hnot as [Hne Hnot].
    rewrite !obscure_phrase_cons, shown_insert, IH by done.
    by rewrite bool_decide_eq_false_2 by congruence.
Qed.

(** ** The computer player's candidates and moves *)

Lemma filter_sublist_impl {A : Type} (P Q : A → Prop)
    `{!∀ x, Decision (P x)} `{!∀ x, Decision (Q x)} (l : list A) :
  (∀ x, P x → Q x) → filter P l `sublist_of` filter Q l.
Proof.
  intros HPQ. induction l as [|x l IH]; [done|].
  rewrite !filter_cons. destruct (decide (P x)) as [HP|HP].
  - rewrite decide_True by auto. by apply sublist_skip.
  - destruct (decide (Q x)); [by apply sublist_cons|done].
Qed.

Lemma possible_letter_iff (money : Z) (g : gset string) (l : string) :
  possible_letter money g l ↔ (l ∉ g) ∧ (str_in l VOWELS = false ∨ (250 ≤ money)%Z).
Proof.
  unfold possible_letter, VOWEL_COST.
  rewrite andb_True, orb_True, bool_decide_spec, negb_True.
  rewrite (Is_true_true (_ <=? _)%Z), Z.leb_le.
  destruct (str_in l VOWELS); cbn; intuition congruence.
Qed.

(** X5: the letters a computer player chooses from are a duplicate-free
    selection of the alphabet in alphabetical order, at most 26 and, while
    the player holds less than 250, at most 21 with no vowel among them; a
    larger guessed set only removes candidates and more money only adds
    some. *)
Theorem X5_get_possible_letters_structure (money : Z) (g : gset string) :
  get_possible_letters money g `sublist_of` (str1 <$> chars LETTERS) ∧
  NoDup (get_possible_letters money g) ∧
  (List.length (get_possible_letters money g) ≤ 26)%nat ∧
  ((money < 250)%Z →
     (List.length (get_possible_letters money g) ≤ 21)%nat ∧
     ∀ l, l ∈ get_possible_letters money g → str_in l VOWELS = false) ∧
  (∀ g', g ⊆ g' →
     get_possible_letters money g' `sublist_of` get_possible_letters money g) ∧
  (∀ money', (money ≤ money')%Z →
     get_possible_letters money g `sublist_of` get_possible_letters money' g).
Proof.
  split; [apply sublist_filter|]. split; [apply NoDup_get_possible_letters|].
  split.
  { change 26%nat with (List.length (str1 <$> chars LETTERS)).
    apply sublist_length, sublist_filter. }
  split; [|split].
  - intros Hm. split.
    + transitivity (List.length (filter (λ l, negb (str_in l VOWELS))
                                        (str1 <$> chars LETTERS))); [|by vm_compute].
      apply sublist_length, filter_sublist_impl.
      intros l [_ [Hv|?]]%possible_letter_iff; [by rewrite Hv|lia].
    + intros l [[_ [Hv|?]]%possible_letter_iff _]%list_elem_of_filter; [done|lia].
  - intros g' Hsub. apply filter_sublist_impl.
    intros l [Hg Hv]%possible_letter_iff. apply possible_letter_iff.
    split; [|done]. intros Hin. by apply Hg, Hsub.
  - intros money' Hle. apply filter_sublist_impl.
    intros l [Hg Hv]%possible_letter_iff. apply possible_letter_iff.
    split; [done|]. destruct Hv; [by left|right; lia].
Qed.

Lemma move_accepted_PASS (player : Player) (g : gset string) :
  move_accepted player g "PASS" = true.
Proof.
  unfold move_accepted. rewrite bool_decide_eq_true_2; [done|].
  rewrite elem_of_union, !elem_of_singleton. by right.
Qed.

Lemma computer_get_move_total money difficulty g a :
  draws_in_range money difficulty g a →
  ∃ m, computer_get_move money difficulty g a = Done m ∧
       (m = "PASS" ∨ ∃ c, m = str1 c ∧ eligible money g c).
Proof.
  intros Hdraw.
  destruct (decide (get_possible_letters money g = [])) as [HL|HL].
  { exists "PASS". split; [by apply computer_get_move_pass|by left]. }
  destruct (smart_coin_flip difficulty (coin a)) eqn:Hsmart.
  { destruct (computer_get_move_smart money difficulty g a HL Hsmart)
      as (c & k & Hc & Hel & _).
    exists (str1 c). split; [done|]. right. by exists c. }
  destruct Hdraw as [?|[?|Hpick]]; [done|congruence|].
  apply lookup_lt_is_Some in Hpick as [l Hl].
  exists l. split.
  - rewrite computer_get_move_random by done. by apply random_choice_Done.
  - right. apply elem_of_get_possible_letters. by eapply list_elem_of_lookup_2.
Qed.

Lemma computer_request_first player difficulty cat phrase g a rest :
  kind player = ComputerPlayer difficulty →
  draws_in_range (prize_money player) difficulty g a →
  ∃ m, get_move player cat (obscure_phrase phrase g) g a = Done m ∧
       move_accepted player g m = true ∧ m ≠ "EXIT" ∧
       (m = "PASS" ∨ ∃ c, m = str1 c ∧ eligible (prize_money player) g c) ∧
       request_player_move player cat g phrase (a :: rest) = Done (m, rest).
Proof.
  intros Hkind Hdraw.
  destruct (computer_get_move_total _ _ _ _ Hdraw) as (m & Hm & Hcases).
  assert (get_move player cat (obscure_phrase phrase g) g a = Done m) as Hget
    by (unfold get_move; by rewrite Hkind).
  assert (move_accepted player g m = true) as Hacc.
  { destruct Hcases as [->|(c & -> & Hc)]; [apply move_accepted_PASS|].
    by apply move_accepted_str1. }
  exists m. split; [done|]. split; [done|]. split.
  { by destruct Hcases as [->|(c & -> & _)]. }
  split; [done|]. cbn. rewrite Hget. cbn. by rewrite Hacc.
Qed.

(** X6: a computer player whose random draws are in range never raises and
    is never asked twice: its move is PASS or an eligible letter, never
    EXIT, the validation accepts it, and the prompt loop returns it on the
    first call of get_move. *)
Theorem X6_computer_move_accepted player difficulty cat phrase g a rest :
  kind player = ComputerPlayer difficulty →
  draws_in_range (prize_money player) difficulty g a →
  ∃ m, get_move player cat (obscure_phrase phrase g) g a = Done m ∧
       move_accepted player g m = true ∧ m ≠ "EXIT" ∧
       (m = "PASS" ∨ ∃ c, m = str1 c ∧ eligible (prize_money player) g c) ∧
       request_player_move player cat g phrase (a :: rest) = Done (m, rest).
Proof. apply computer_request_first. Qed.

Lemma X6_computer_move_accepted_witness :
  draws_in_range 0 5 ∅ (mkAnswer "" 3 4) ∧
  request_player_move (Player_init "Robot" (ComputerPlayer 5)) "Greeting" ∅
                      "HELLO WORLD" [mkAnswer "" 3 4; mkAnswer "" 9 0]
  = Done ("G", [mkAnswer "" 9 0]).
Proof.
  assert (draws_in_range 0 5 ∅ (mkAnswer "" 3 4)) as Hdraw.
  { right. right. vm_compute. lia. }
  split; [exact Hdraw|].
  destruct (X6_computer_move_accepted (Player_init "Robot" (ComputerPlayer 5)) 5
              "Greeting" "HELLO WORLD" ∅ (mkAnswer "" 3 4) [mkAnswer "" 9 0]
              eq_refl Hdraw) as (m & Hget & _ & _ & _ & Hreq).
  vm_compute in Hget. injection Hget as <-. exact Hreq.
Defined.

(** ** What one pass through the loop can do *)

Lemma move_accepted_cases (player : Player) (g : gset string) (m : string) :
  move_accepted player g m = true →
  m = "EXIT" ∨ m = "PASS" ∨
  ∃ ch, m = str1 ch ∧ is_capital ch ∧ (str1 ch ∉ g) ∧
        (is_vowel ch = false ∨ (250 ≤ prize_money player)%Z).
Proof.
  intros Hacc.
  destruct (decide (m = "EXIT")) as [|He]; [by left|].
  destruct (decide (m = "PASS")) as [|Hp]; [by right; left|].
  right. right.
  destruct (decide (String.length m = 1%nat)) as [Hlen|Hlen].
  - destruct m as [|ch [|]]; try done. exists ch.
    by apply move_accepted_str1 in Hacc.
  - by rewrite long_move_refused in Hacc.
Qed.

Lemma request_player_move_suffix player cat g phrase answers m rest :
  request_player_move player cat g phrase answers = Done (m, rest) →
  ∃ used, answers = (used ++ rest)%list ∧ used ≠ [].
Proof.
  induction answers as [|a answers IH]; [done|]. cbn.
  destruct (get_move _ _ _ _ _) as [m'| |]; cbn; try done.
  destruct (move_accepted player g m').
  - intros [= <- <-]. by exists [a].
  - intros (used & -> & _)%IH. by exists (a :: used).
Qed.

Lemma loop_body_effect wheel r answers st c st' rest :
  loop_body wheel r answers st = Done (c, st', rest) →
  ∃ player, players st !! player_index st = Some player ∧
            pass_effect answers st player c st' rest.
Proof.
  intros Hbody.
  destruct (loop_body_Done _ _ _ _ _ _ _ Hbody) as (player & seg & Hp & Hs).
  exists player. split; [done|].
  rewrite (loop_body_eq _ _ _ _ _ _ Hp Hs) in Hbody.
  destruct (seg_type seg).
  - injection Hbody as <- <- <-. constructor.
  - injection Hbody as <- <- <-. constructor.
  - destruct (request_player_move _ _ _ _ _) as [[move rest']| |] eqn:Hreq; [|done..].
    apply request_player_move_accepted, move_accepted_cases in Hreq
      as [->|[->|(ch & -> & Hcap & Hnew & Hpay)]].
    + injection Hbody as <- <- <-. constructor.
    + injection Hbody as <- <- <-. constructor.
    + cbn -[obscure_phrase] in Hbody.
      rewrite (bool_decide_eq_false_2 (str1 ch = "EXIT")),
              (bool_decide_eq_false_2 (str1 ch = "PASS")) in Hbody by discriminate.
      case_bool_decide as Hwin; injection Hbody as <- <- <-; by constructor.
Qed.

Lemma go_bankrupt_broke (p : Player) : prize_money p = 0%Z → go_bankrupt p = p.
Proof. destruct p as [n m ps k]. cbn. by intros ->. Qed.

(** X7: a pass through the loop is made by an existing player and leaves the
    list of players as long as it was; every player keeps name, prizes and
    class, and keeps the money too, except that the current player's money
    may have become 0.  No pass adds money or a prize. *)
Theorem X7_loop_body_players wheel r answers st c st' rest :
  loop_body wheel r answers st = Done (c, st', rest) →
  (player_index st < List.length (players st))%nat ∧
  List.length (players st') = List.length (players st) ∧
  ∀ i p, players st !! i = Some p →
    ∃ p', players st' !! i = Some p' ∧
          name p' = name p ∧ prizes p' = prizes p ∧ kind p' = kind p ∧
          (prize_money p' = prize_money p ∨
           (i = player_index st ∧ prize_money p' = 0%Z)).
Proof.
  intros (player & Hp & Heff)%loop_body_effect.
  split; [by eapply lookup_lt_Some|].
  destruct Heff; cbn;
    try (split; [done|]; intros i p Hi; exists p; repeat split; try done; by left).
  split; [apply length_insert|]. intros i p Hi.
  destruct (decide (i = player_index st)) as [->|Hne].
  - rewrite Hp in Hi. injection Hi as <-. exists (go_bankrupt player).
    rewrite list_lookup_insert_eq by (by eapply lookup_lt_Some).
    repeat split; try done. by right.
  - exists p. rewrite list_lookup_insert_ne by done.
    repeat split; try done. by left.
Qed.

Lemma X7_loop_body_players_witness :
  loop_body demo_wheel 1 [] demo_start = Done (Next, advance demo_start, []) ∧
  (player_index demo_start < List.length (players demo_start))%nat.
Proof.
  assert (loop_body demo_wheel 1 [] demo_start = Done (Next, advance demo_start, []))
    as Hbody by (vm_compute; reflexivity).
  split; [exact Hbody|].
  exact (proj1 (X7_loop_body_players _ _ _ _ _ _ _ Hbody)).
Defined.

(** X8: a pass through the loop either leaves the guessed set as it was or
    adds exactly one move to it: a single capital letter that was not in the
    set and that is a consonant unless the current player holds at least
    250.  The set then has one element more. *)
Theorem X8_loop_body_guessed wheel r answers st c st' rest :
  loop_body wheel r answers st = Done (c, st', rest) →
  guessed st' = guessed st ∨
  ∃ player ch,
    players st !! player_index st = Some player ∧
    is_capital ch ∧ (str1 ch ∉ guessed st) ∧
    (is_vowel ch = false ∨ (250 ≤ prize_money player)%Z) ∧
    guessed st' = {[str1 ch]} ∪ guessed st ∧
    size (guessed st') = S (size (guessed st)).
Proof.
  intros (player & Hp & Heff)%loop_body_effect.
  destruct Heff; cbn; try (by left); right; exists player, ch;
    (do 5 (split; [done|])); rewrite size_union by set_solver;
    by rewrite size_singleton.
Qed.

Lemma X8_loop_body_guessed_witness :
  loop_body demo_wheel 0 [mkAnswer "h" 1 0] demo_start
    = Done (Next, advance (set_guessed {["H"]} demo_start), []) ∧
  (guessed (advance (set_guessed {["H"]} demo_start)) = guessed demo_start ∨
   ∃ ch, guessed (advance (set_guessed {["H"]} demo_start))
         = {[str1 ch]} ∪ guessed demo_start).
Proof.
  split; [exact demo_first_turn|].
  destruct (X8_loop_body_guessed _ _ _ _ _ _ _ demo_first_turn)
    as [Hsame|(player & ch & _ & _ & _ & _ & Hadd & _)].
  - left. exact Hsame.
  - right. exists ch. exact Hadd.
Defined.

(** X9: how a pass through the loop ends.  The category and the phrase stay;
    the answers left over are an end part of the answers given; when the
    loop goes on, the winner is as before and the turn has moved to the next
    player in the round; on EXIT nothing at all has changed; and when the
    loop is left with a winner, that winner is the current player, whose
    board shows the whole phrase, and the players are as before. *)
Theorem X9_loop_body_control wheel r answers st c st' rest :
  loop_body wheel r answers st = Done (c, st', rest) →
  category st' = category st ∧ phrase st' = phrase st ∧
  (∃ used, answers = (used ++ rest)%list) ∧
  match c with
  | Next =>
      winner st' = winner st ∧
      player_index st' = ((player_index st + 1) mod List.length (players st))%nat
  | Return => st' = st
  | Break =>
      winner st' = Some (player_index st) ∧ player_index st' = player_index st ∧
      players st' = players st ∧
      obscure_phrase (phrase st') (guessed st') = phrase st'
  end.
Proof.
  intros Hbody.
  assert (∃ used, answers = (used ++ rest)%list) as Hsuffix.
  { destruct (loop_body_Done _ _ _ _ _ _ _ Hbody) as (player & seg & Hp & Hs).
    rewrite (loop_body_eq _ _ _ _ _ _ Hp Hs) in Hbody.
    destruct (seg_type seg).
    - injection Hbody as <- <- <-. by exists [].
    - injection Hbody as <- <- <-. by exists [].
    - destruct (request_player_move _ _ _ _ _) as [[move rest']| |] eqn:Hreq; [|done..].
      apply request_player_move_suffix in Hreq as (used & -> & _).
      cbn -[obscure_phrase] in Hbody.
      repeat case_match; injection Hbody as <- <- <-; by exists used. }
  apply loop_body_effect in Hbody as (player & Hp & Heff).
  destruct Heff; cbn; try done.
  by rewrite length_insert.
Qed.

Lemma X9_loop_body_control_witness :
  loop_body demo_wheel 0 [mkAnswer "h" 1 0] demo_start
    = Done (Next, advance (set_guessed {["H"]} demo_start), []) ∧
  player_index (advance (set_guessed {["H"]} demo_start)) = 1%nat.
Proof.
  split; [exact demo_first_turn|].
  destruct (X9_loop_body_control _ _ _ _ _ _ _ demo_first_turn)
    as (_ & _ & _ & _ & Hidx).
  exact Hidx.
Defined.

(** X10: on a cash segment a human player who types exit, in any mix of
    small and capital letters, ends the game at once: main returns with the
    state untouched and no winner is set.  Typing pass only moves the turn
    on.  On any other segment the typed line is not read at all. *)
Theorem X10_human_exit_and_pass wheel r seg st player a rest :
  players st !! player_index st = Some player →
  kind player = HumanPlayer →
  spin_wheel wheel r = Done seg →
  (seg_type seg = CASH → upper (typed a) = "EXIT" →
     loop_body wheel r (a :: rest) st = Done (Return, st, rest)) ∧
  (seg_type seg = CASH → upper (typed a) = "PASS" →
     loop_body wheel r (a :: rest) st = Done (Next, advance st, rest)) ∧
  (seg_type seg ≠ CASH →
     ∃ st', loop_body wheel r (a :: rest) st = Done (Next, st', a :: rest)).
Proof.
  intros Hp Hkind Hs. rewrite (loop_body_eq _ _ _ _ _ _ Hp Hs).
  split; [|split].
  - intros -> Hexit. cbn. unfold get_move. rewrite Hkind, Hexit. done.
  - intros -> Hpass. cbn. unfold get_move. rewrite Hkind, Hpass. cbn.
    by rewrite move_accepted_PASS.
  - intros Hseg. destruct (seg_type seg); [by eexists..|done].
Qed.

Lemma X10_human_exit_and_pass_witness :
  spin_wheel demo_wheel 0 = Done (mkWheelSegment "100" CASH 100 "") ∧
  loop_body demo_wheel 0 [mkAnswer "Exit" 1 0; mkAnswer "h" 1 0] demo_start
  = Done (Return, demo_start, [mkAnswer "h" 1 0]).
Proof.
  split; [reflexivity|].
  apply (X10_human_exit_and_pass demo_wheel 0 (mkWheelSegment "100" CASH 100 "")
           demo_start (Player_init "Ann" HumanPlayer) (mkAnswer "Exit" 1 0)
           [mkAnswer "h" 1 0] eq_refl eq_refl eq_refl); reflexivity.
Defined.

(** ** A whole game, from its start *)

Lemma is_vowel_capital (c : ascii) : is_vowel c = true → is_capital c.
Proof. destruct c as [[] [] [] [] [] [] [] []]; vm_compute; intros; done. Qed.

Lemma elem_of_consonant_moves (c : ascii) :
  str1 c ∈ consonant_moves ↔ is_capital c ∧ is_vowel c = false.
Proof.
  assert (bool_decide (str1 c ∈ consonant_moves) = is_capital c && negb (is_vowel c))
    as Hdec by (destruct c as [[] [] [] [] [] [] [] []]; vm_compute; reflexivity).
  rewrite <- (bool_decide_spec (str1 c ∈ consonant_moves)), Hdec, andb_True, negb_True.
  destruct (is_vowel c); cbn; intuition congruence.
Qed.

Lemma game_start_shape st0 wheel :
  game_start st0 wheel →
  guessed st0 = ∅ ∧ player_index st0 = 0%nat ∧ winner st0 = None ∧
  players st0 ≠ [] ∧ Forall (λ p, prize_money p = 0%Z) (players st0).
Proof.
  intros Hstart. pose proof (game_start_money _ _ Hstart) as Hmoney.
  destruct Hstart as (names & nc & d & phrases & data & r1 & r2 & Hsetup).
  by apply setup_Done in Hsetup as (cat & ph & _ & _ & Hne & ->).
Qed.

Lemma reachable_start_invariant st0 wheel c st :
  game_start st0 wheel → reachable wheel st0 c st →
  players st = players st0 ∧
  (player_index st < List.length (players st0))%nat ∧
  guessed st ⊆ consonant_moves ∧
  match c with
  | Break =>
      winner st = Some (player_index st) ∧
      obscure_phrase (phrase st) (guessed st) = phrase st
  | _ => winner st = None
  end.
Proof.
  intros (Hg0 & Hi0 & Hw0 & Hne & Hmoney)%game_start_shape.
  induction 1 as [|st r answers c st' rest _ IH Hw Hbody].
  { rewrite Hg0, Hi0, Hw0. split; [done|]. split; [|done].
    destruct (players st0); [done|cbn; lia]. }
  destruct IH as (Hpl & Hidx & Hcons & _).
  apply loop_body_effect in Hbody as (player & Hp & Heff).
  assert (prize_money player = 0%Z) as Hzero.
  { rewrite Hpl in Hp. rewrite Forall_forall in Hmoney.
    apply Hmoney. by eapply list_elem_of_lookup_2. }
  assert (((player_index st + 1) mod List.length (players st)
           < List.length (players st0))%nat) as Hnext.
  { rewrite Hpl. apply Nat.mod_upper_bound. lia. }
  assert (∀ ch, is_capital ch →
                is_vowel ch = false ∨ (250 ≤ prize_money player)%Z →
                {[str1 ch]} ∪ guessed st ⊆ consonant_moves) as Hadd.
  { intros ch Hcap [Hv|?]; [|lia].
    apply union_subseteq. split; [|done].
    apply singleton_subseteq_l. by apply elem_of_consonant_moves. }
  destruct Heff;
    cbn [players player_index guessed winner phrase
         advance set_players set_guessed set_winner];
    rewrite ?length_insert.
  - split; [by rewrite go_bankrupt_broke, list_insert_id|]. by split.
  - by split.
  - by split.
  - by split.
  - split; [done|]. split; [done|]. split; [by apply Hadd|]. by split.
  - split; [done|]. split; [done|]. split; [by apply Hadd|done].
Qed.

(** X11: in every configuration a game reaches from its start, the players
    are exactly those created at the start (a bankrupt player had nothing to
    lose), the index of the current player is within the list, and the
    winner variable is empty unless the loop was left by break, in which
    case it names the current player and the board shows the whole
    phrase. *)
Theorem X11_reachable_well_formed st0 wheel c st :
  game_start st0 wheel →
  reachable wheel st0 c st →
  players st = players st0 ∧ players st ≠ [] ∧
  (player_index st < List.length (players st))%nat ∧
  category st = category st0 ∧
  match c with
  | Break =>
      winner st = Some (player_index st) ∧
      obscure_phrase (phrase st) (guessed st) = phrase st
  | _ => winner st = None
  end.
Proof.
  intros Hstart Hreach.
  destruct (reachable_start_invariant _ _ _ _ Hstart Hreach) as (Hpl & Hidx & _ & Hc).
  destruct (reachable_invariant _ _ _ _ Hreach) as (Hcat & _).
  apply game_start_shape in Hstart as (_ & _ & _ & Hne & _).
  rewrite Hpl. done.
Qed.

Lemma demo_game_start : game_start demo_start demo_wheel.
Proof.
  exists ["Ann"], 1%nat, 5%Z, demo_phrases, demo_wheel_data, 0%nat, 0%nat.
  exact demo_setup.
Qed.

Lemma demo_reach_first :
  reachable demo_wheel demo_start Next (advance (set_guessed {["H"]} demo_start)).
Proof. eapply reach_step; [apply reach_start|reflexivity|exact demo_first_turn]. Qed.

Lemma X11_reachable_well_formed_witness :
  game_start demo_start demo_wheel ∧
  reachable demo_wheel demo_start Next (advance (set_guessed {["H"]} demo_start)) ∧
  players (advance (set_guessed {["H"]} demo_start)) = players demo_start.
Proof.
  split; [exact demo_game_start|]. split; [exact demo_reach_first|].
  exact (proj1 (X11_reachable_well_formed _ _ _ _ demo_game_start demo_reach_first)).
Defined.

(** X12: from the start of a game, only consonants ever enter the guessed
    set: every guessed move is a single capital letter that is not a vowel,
    so the set never holds more than 21 moves. *)
Theorem X12_guessed_only_consonants st0 wheel c st :
  game_start st0 wheel →
  reachable wheel st0 c st →
  (∀ m, m ∈ guessed st → ∃ ch, m = str1 ch ∧ is_capital ch ∧ is_vowel ch = false) ∧
  (size (guessed st) ≤ 21)%nat.
Proof.
  intros Hstart Hreach.
  destruct (reachable_start_invariant _ _ _ _ Hstart Hreach) as (_ & _ & Hcons & _).
  split.
  - intros m Hm. pose proof (Hcons m Hm) as Hm'. unfold consonant_moves in Hm'.
    apply elem_of_list_to_set, list_elem_of_filter in Hm'
      as [_ (ch & -> & _)%elem_of_letters].
    exists ch. split; [done|]. by apply elem_of_consonant_moves, Hcons.
  - transitivity (size consonant_moves); [by apply subseteq_size|by vm_compute].
Qed.

Lemma X12_guessed_only_consonants_witness :
  game_start demo_start demo_wheel ∧
  reachable demo_wheel demo_start Next (advance (set_guessed {["H"]} demo_start)) ∧
  (size (guessed (advance (set_guessed {["H"]} demo_start))) ≤ 21)%nat.
Proof.
  split; [exact demo_game_start|]. split; [exact demo_reach_first|].
  exact (proj2 (X12_guessed_only_consonants _ _ _ _ demo_game_start demo_reach_first)).
Defined.

Lemma vowel_phrase_hidden st0 wheel c st :
  game_start st0 wheel →
  has_vowel (phrase st0) →
  reachable wheel st0 c st →
  obscure_phrase (phrase st) (guessed st) ≠ phrase st ∧
  c ≠ Break ∧ winner st = None.
Proof.
  intros Hstart (v & Hv & Hvow) Hreach.
  destruct (reachable_start_invariant _ _ _ _ Hstart Hreach) as (_ & _ & Hcons & Hc).
  destruct (reachable_invariant _ _ _ _ Hreach) as (_ & Hph & _).
  assert (obscure_phrase (phrase st) (guessed st) ≠ phrase st) as Hhidden.
  { intros Hwin.
    pose proof (proj1 (obscure_phrase_win_iff _ _) Hwin) as Hall.
    rewrite Hph in Hall.
    pose proof (Hall v Hv (is_vowel_capital v Hvow)) as Hin.
    apply Hcons, elem_of_consonant_moves in Hin as [_ Hno]. congruence. }
  split; [done|]. destruct c; [done| |done].
  by destruct Hc as [_ Hwin].
Qed.

(** X13: a game whose phrase contains a vowel is never won.  From the start
    no player can pay for a vowel and a guess of the whole phrase is refused,
    so in every configuration the game reaches the board still hides a
    letter, the loop has not been left by break and there is no winner. *)
Theorem X13_vowel_phrase_never_won st0 wheel c st :
  game_start st0 wheel →
  has_vowel (phrase st0) →
  reachable wheel st0 c st →
  obscure_phrase (phrase st) (guessed st) ≠ phrase st ∧
  c ≠ Break ∧ winner st = None.
Proof. apply vowel_phrase_hidden. Qed.

Lemma X13_vowel_phrase_never_won_witness :
  game_start demo_start demo_wheel ∧ has_vowel (phrase demo_start) ∧
  reachable demo_wheel demo_start Next (advance (set_guessed {["H"]} demo_start)) ∧
  winner (advance (set_guessed {["H"]} demo_start)) = None.
Proof.
  assert (has_vowel (phrase demo_start)) as Hvow.
  { exists "E"%char. split; [|reflexivity]. right. left. }
  split; [exact demo_game_start|]. split; [exact Hvow|].
  split; [exact demo_reach_first|].
  exact (proj2 (proj2 (X13_vowel_phrase_never_won _ _ _ _ demo_game_start Hvow
                         demo_reach_first))).
Defined.

Lemma request_player_move_from player cat g phrase answers m rest :
  request_player_move player cat g phrase answers = Done (m, rest) →
  ∃ a, a ∈ answers ∧ get_move player cat (obscure_phrase phrase g) g a = Done m.
Proof.
  induction answers as [|a answers IH]; [done|]. cbn -[obscure_phrase].
  destruct (get_move _ _ _ _ _) as [m'| |] eqn:Hget; cbn -[obscure_phrase]; try done.
  destruct (move_accepted player g m').
  - intros [= <- <-]. exists a. split; [by left|done].
  - intros (a' & Hin & Ha')%IH. exists a'. split; [by right|done].
Qed.

Lemma computer_never_exits player d cat board g a m :
  kind player = ComputerPlayer d →
  get_move player cat board g a = Done m → m ≠ "EXIT".
Proof.
  intros Hkind. unfold get_move. rewrite Hkind.
  intros [->|(c & -> & _)%elem_of_get_possible_letters]%computer_get_move_possible;
    discriminate.
Qed.

Lemma loop_body_computer_no_return wheel r answers st player d c st' rest :
  players st !! player_index st = Some player →
  kind player = ComputerPlayer d →
  loop_body wheel r answers st = Done (c, st', rest) → c ≠ Return.
Proof.
  intros Hp Hkind Hbody.
  destruct (loop_body_Done _ _ _ _ _ _ _ Hbody) as (player' & seg & Hp' & Hs).
  rewrite Hp in Hp'. injection Hp' as <-.
  rewrite (loop_body_eq _ _ _ _ _ _ Hp Hs) in Hbody.
  destruct (seg_type seg); [by injection Hbody as <- | by injection Hbody as <- |].
  destruct (request_player_move _ _ _ _ _) as [[move rest']| |] eqn:Hreq; [|done..].
  apply request_player_move_from in Hreq as (a & _ & Hget).
  apply (computer_never_exits _ _ _ _ _ _ _ Hkind) in Hget.
  cbn -[obscure_phrase] in Hbody.
  rewrite (bool_decide_eq_false_2 (move = "EXIT")) in Hbody by done.
  repeat case_match; by injection Hbody as <-.
Qed.

Lemma loop_body_computer_progress wheel r a rest st player d :
  players st !! player_index st = Some player →
  kind player = ComputerPlayer d →
  (r < List.length wheel)%nat →
  draws_in_range (prize_money player) d (guessed st) a →
  ∃ c st' rest', loop_body wheel r (a :: rest) st = Done (c, st', rest').
Proof.
  intros Hp Hkind Hr Hdraw.
  apply lookup_lt_is_Some in Hr as [seg Hseg].
  assert (spin_wheel wheel r = Done seg) as Hs by (by apply random_choice_Done).
  rewrite (loop_body_eq _ _ _ _ _ _ Hp Hs).
  destruct (seg_type seg); [by eexists _, _, _..|].
  destruct (computer_request_first player d (category st) (phrase st) (guessed st)
              a rest Hkind Hdraw) as (m & _ & _ & _ & Hcases & ->).
  destruct Hcases as [->|(ch & -> & _)].
  - by eexists _, _, _.
  - cbn -[obscure_phrase].
    rewrite (bool_decide_eq_false_2 (str1 ch = "EXIT")),
            (bool_decide_eq_false_2 (str1 ch = "PASS")) by discriminate.
    case_bool_decide; by eexists _, _, _.
Qed.

Lemma computer_game_only_next st0 wheel c st :
  game_start st0 wheel →
  Forall (λ p, kind p ≠ HumanPlayer) (players st0) →
  has_vowel (phrase st0) →
  reachable wheel st0 c st →
  c = Next ∧ winner st = None.
Proof.
  intros Hstart Hrobots Hvow Hreach.
  destruct (vowel_phrase_hidden _ _ _ _ Hstart Hvow Hreach) as (_ & Hnb & Hw).
  split; [|done].
  destruct Hreach as [|st r answers c st' rest Hprev _ Hbody]; [done|].
  destruct (reachable_start_invariant _ _ _ _ Hstart Hprev) as (Hpl & _).
  destruct (loop_body_Done _ _ _ _ _ _ _ Hbody) as (player & seg & Hp & _).
  assert (∃ d, kind player = ComputerPlayer d) as [d Hkind].
  { rewrite Forall_forall in Hrobots. rewrite Hpl in Hp.
    pose proof (Hrobots player (list_elem_of_lookup_2 _ _ _ Hp)) as Hk.
    destruct (kind player) as [|d]; [done|by exists d]. }
  pose proof (loop_body_computer_no_return _ _ _ _ _ _ _ _ _ Hp Hkind Hbody).
  by destruct c.
Qed.

(** X14: a game between computer players only, on a phrase that contains a
    vowel, never ends.  Every configuration it reaches is inside the loop
    with no winner: a computer player never answers EXIT and the phrase can
    never be completed.  And from every such configuration the next pass
    through the loop, for any wheel draw and any random draws in range,
    completes and leaves the game inside the loop again. *)
Theorem X14_computer_game_never_ends st0 wheel c st :
  game_start st0 wheel →
  Forall (λ p, kind p ≠ HumanPlayer) (players st0) →
  has_vowel (phrase st0) →
  reachable wheel st0 c st →
  c = Next ∧ winner st = None ∧
  ∀ r a rest,
    (r < List.length wheel)%nat →
    (∀ player d, players st !! player_index st = Some player →
                 kind player = ComputerPlayer d →
                 draws_in_range (prize_money player) d (guessed st) a) →
    ∃ st' rest', loop_body wheel r (a :: rest) st = Done (Next, st', rest').
Proof.
  intros Hstart Hrobots Hvow Hreach.
  destruct (computer_game_only_next _ _ _ _ Hstart Hrobots Hvow Hreach) as [-> Hw].
  split; [done|]. split; [done|].
  intros r a rest Hr Hdraw.
  destruct (reachable_start_invariant _ _ _ _ Hstart Hreach) as (Hpl & Hidx & _).
  rewrite <- Hpl in Hidx. apply lookup_lt_is_Some in Hidx as [player Hp].
  assert (∃ d, kind player = ComputerPlayer d) as [d Hkind].
  { rewrite Forall_forall in Hrobots.
    assert (player ∈ players st0) as Hin
      by (rewrite <- Hpl; by eapply list_elem_of_lookup_2).
    pose proof (Hrobots player Hin) as Hk.
    destruct (kind player) as [|d]; [done|by exists d]. }
  destruct (loop_body_computer_progress wheel r a rest st player d Hp Hkind Hr
              (Hdraw player d Hp Hkind)) as (c' & st' & rest' & Hbody).
  assert (reachable wheel st0 c' st') as Hreach'
    by (by eapply reach_step).
  destruct (computer_game_only_next _ _ _ _ Hstart Hrobots Hvow Hreach') as [-> _].
  by exists st', rest'.
Qed.

Lemma robots_setup :
  setup [] 2 5 demo_phrases demo_wheel_data 0 0 = Done (robots_start, demo_wheel).
Proof. vm_compute. reflexivity. Qed.

Lemma X14_computer_game_never_ends_witness :
  game_start robots_start demo_wheel ∧
  Forall (λ p, kind p ≠ HumanPlayer) (players robots_start) ∧
  has_vowel (phrase robots_start) ∧
  ∃ st' rest', loop_body demo_wheel 0 [mkAnswer "" 9 0] robots_start
               = Done (Next, st', rest').
Proof.
  assert (game_start robots_start demo_wheel) as Hstart.
  { exists [], 2%nat, 5%Z, demo_phrases, demo_wheel_data, 0%nat, 0%nat.
    exact robots_setup. }
  assert (Forall (λ p, kind p ≠ HumanPlayer) (players robots_start)) as Hrobots.
  { repeat constructor; discriminate. }
  assert (has_vowel (phrase robots_start)) as Hvow.
  { exists "E"%char. split; [|reflexivity]. right. left. }
  split; [exact Hstart|]. split; [exact Hrobots|]. split; [exact Hvow|].
  destruct (X14_computer_game_never_ends _ _ _ _ Hstart Hrobots Hvow (reach_start _ _))
    as (_ & _ & Hgo).
  apply (Hgo 0%nat (mkAnswer "" 9 0) []).
  - cbn. lia.
  - intros player d Hp Hkind. injection Hp as <-. injection Hkind as <-.
    right. left. reflexivity.
Defined.

(** ** The order of the turns *)

Lemma loop_body_Next wheel r answers st st' rest :
  loop_body wheel r answers st = Done (Next, st', rest) →
  winner st' = winner st ∧
  player_index st' = ((player_index st + 1) mod List.length (players st))%nat ∧
  List.length (players st') = List.length (players st) ∧
  (player_index st < List.length (players st))%nat.
Proof.
  intros (player & Hp & Heff)%loop_body_effect.
  apply lookup_lt_Some in Hp.
  remember Next as c eqn:Hc.
  destruct Heff; try discriminate;
    cbn [players player_index winner advance set_players set_guessed];
    by rewrite ?length_insert.
Qed.

Lemma play_round_robin wheel turns st0 st :
  winner st0 = None →
  (player_index st0 < List.length (players st0))%nat →
  play wheel turns st0 = Done (Next, st) →
  player_index st
  = ((player_index st0 + List.length turns) mod List.length (players st0))%nat ∧
  List.length (players st) = List.length (players st0) ∧
  winner st = None.
Proof.
  revert st0. induction turns as [|[r answers] turns IH]; intros st0 Hw Hidx.
  - cbn. rewrite Hw. intros [= <-].
    by rewrite Nat.add_0_r, Nat.mod_small.
  - cbn [play]. rewrite Hw.
    destruct (loop_body wheel r answers st0) as [[[c st1] rest]| |] eqn:Hbody; [|done..].
    cbn. destruct c; [|done..].
    destruct (loop_body_Next _ _ _ _ _ _ Hbody) as (Hw1 & Hi1 & Hl1 & _).
    intros Hplay. apply IH in Hplay as (Hi & Hl & Hwin).
    + rewrite Hi, Hi1, Hl1, Nat.Div0.add_mod_idemp_l.
      split; [f_equal; cbn; lia|]. split; [congruence|done].
    + congruence.
    + rewrite Hi1, Hl1. apply Nat.mod_upper_bound. lia.
Qed.

(** X15: the players take their turns in a fixed round.  When the loop has
    started with no winner and has made a number of passes without being
    left, the current player is the one that many places further round the
    list of players, which is as long as before, and there is still no
    winner. *)
Theorem X15_play_round_robin wheel turns st0 st :
  winner st0 = None →
  (player_index st0 < List.length (players st0))%nat →
  play wheel turns st0 = Done (Next, st) →
  player_index st
  = ((player_index st0 + List.length turns) mod List.length (players st0))%nat ∧
  List.length (players st) = List.length (players st0) ∧
  winner st = None.
Proof. apply play_round_robin. Qed.

Lemma X15_play_round_robin_witness :
  play demo_wheel [(0%nat, [mkAnswer "h" 1 0]); (1%nat, []); (0%nat, [mkAnswer "pass" 1 0])]
       demo_start
  = Done (Next, advance (advance (advance (set_guessed {["H"]} demo_start)))) ∧
  player_index (advance (advance (advance (set_guessed {["H"]} demo_start)))) = 1%nat.
Proof.
  assert (play demo_wheel
            [(0%nat, [mkAnswer "h" 1 0]); (1%nat, []); (0%nat, [mkAnswer "pass" 1 0])]
            demo_start
          = Done (Next, advance (advance (advance (set_guessed {["H"]} demo_start)))))
    as Hplay by (vm_compute; reflexivity).
  split; [exact Hplay|].
  assert (player_index demo_start < List.length (players demo_start))%nat as Hlt
    by (cbn; lia).
  destruct (X15_play_round_robin demo_wheel _ demo_start _ eq_refl Hlt Hplay)
    as (Hidx & _).
  exact Hidx.
Defined.

(** ** Loading the wheel and choosing the phrase *)

Lemma load_wheel_known (data : list RawSegment) :
  Forall (λ s, raw_type s ∈ wheel_kinds) data →
  ∃ wheel, load_wheel data = Done wheel ∧ Forall2 segment_of_record data wheel.
Proof.
  unfold load_wheel. induction 1 as [|s data Hs _ (wheel & IH & Hall)].
  - by exists [].
  - rewrite mapM_outcome_cons, IH. unfold WheelSegment_init.
    destruct (proj1 (WheelResult_of_value_kinds _) Hs) as [k Hk]. rewrite Hk.
    eexists. split; [reflexivity|]. by constructor.
Qed.

(** X16: for a wheel file that has been read and decoded into records with
    a text, a type and at most the further keys value and prize, the wheel
    is built exactly when every record names one of the kinds bankrupt,
    loseturn, cash.  The wheel then has one segment per record, in the same
    order, with the record's text, the kind named, the value of the record
    or 0 when it has none, and its prize or the empty string; no record
    gives an empty wheel.  With a record of another kind the construction
    raises ValueError. *)
Theorem X16_load_wheel_spec (data : list RawSegment) :
  (Forall (λ s, raw_type s ∈ wheel_kinds) data →
     ∃ wheel, load_wheel data = Done wheel ∧
              List.length wheel = List.length data ∧
              ∀ i s, data !! i = Some s →
                ∃ seg, wheel !! i = Some seg ∧ segment_of_record s seg) ∧
  (¬ Forall (λ s, raw_type s ∈ wheel_kinds) data →
     load_wheel data = Raised ValueError) ∧
  load_wheel [] = Done [].
Proof.
  split; [|split; [|done]].
  - intros (wheel & Hload & Hall)%load_wheel_known.
    exists wheel. split; [done|]. split; [symmetry; by eapply Forall2_length|].
    intros i s Hi. by eapply Forall2_lookup_l.
  - intros Hbad. apply load_wheel_bad_kind.
    apply not_Forall_Exists in Hbad; [|apply _].
    apply Exists_exists in Hbad as (s & Hin & Hs). by exists s.
Qed.

Lemma dict_get_lookup {V : Type} (d : list (string * V)) (i : nat) (k : string) (v : V) :
  NoDup (d.*1) → d !! i = Some (k, v) → dict_get d k = Done v.
Proof.
  intros Hnd Hi. unfold dict_get.
  assert (list_find (λ kv : string * V, kv.1 = k) d = Some (i, (k, v))) as ->; [|done].
  apply list_find_Some. split; [done|]. split; [done|].
  intros j [k' v'] Hj Hlt Hk. cbn in Hk. subst k'.
  assert (j = i); [|lia].
  apply (NoDup_lookup (d.*1) j i k Hnd); by rewrite list_lookup_fmap, ?Hj, ?Hi.
Qed.

Lemma dict_get_key {V : Type} (d : list (string * V)) (k : string) :
  k ∈ d.*1 → ∃ v, dict_get d k = Done v.
Proof.
  intros ([k' v] & -> & Hin)%list_elem_of_fmap. unfold dict_get. cbn [fst].
  destruct (list_find_elem_of (λ kv : string * V, kv.1 = k') d (k', v) Hin eq_refl)
    as [[j [k'' v'']] ->].
  by exists v''.
Qed.

Lemma get_random_category_and_phrase_drawn phrases r1 r2 cat ph :
  get_random_category_and_phrase phrases r1 r2 = Done (cat, ph) →
  (phrases.*1) !! r1 = Some cat ∧
  ∃ candidates, (cat, candidates) ∈ phrases ∧ (r2 < List.length candidates)%nat.
Proof.
  unfold get_random_category_and_phrase.
  destruct (random_choice (phrases.*1) r1) as [cat'| |] eqn:Hcat; [|done..].
  cbn -[dict_get].
  destruct (dict_get phrases cat') as [candidates| |] eqn:Hget; [|done..]. cbn.
  destruct (random_choice candidates r2) as [chosen| |] eqn:Hch; [|done..]. cbn.
  intros [= <- <-]. split; [by apply random_choice_Done|].
  exists candidates. split; [by apply dict_get_Done|].
  apply random_choice_Done in Hch. by eapply lookup_lt_Some.
Qed.

(** X17: choosing category and phrase.  With an empty catalogue, and with a
    drawn category that has no phrase, random.choice raises IndexError, and
    IndexError is the only exception there is: the drawn category is always
    a key of the catalogue.  When the keys are distinct, the first draw
    decides the category, and the call returns a phrase for that category
    exactly when the second draw lies within that category's own list. *)
Theorem X17_get_random_category_and_phrase_spec
    (phrases : list (string * list string)) (r1 r2 : nat) :
  (phrases = [] →
     get_random_category_and_phrase phrases r1 r2 = Raised IndexError) ∧
  (∀ cat candidates,
     NoDup (phrases.*1) → phrases !! r1 = Some (cat, candidates) →
     match candidates !! r2 with
     | Some _ => ∃ ph, get_random_category_and_phrase phrases r1 r2 = Done (cat, ph)
     | None => get_random_category_and_phrase phrases r1 r2 = Raised IndexError
     end) ∧
  (∀ e, get_random_category_and_phrase phrases r1 r2 = Raised e → e = IndexError) ∧
  get_random_category_and_phrase phrases r1 r2 ≠ Blocked ∧
  (∀ cat ph,
     get_random_category_and_phrase phrases r1 r2 = Done (cat, ph) →
     (phrases.*1) !! r1 = Some cat ∧
     ∃ candidates, (cat, candidates) ∈ phrases ∧ (r2 < List.length candidates)%nat).
Proof.
  assert (∀ cat, random_choice (phrases.*1) r1 = Done cat →
                 ∃ candidates, dict_get phrases cat = Done candidates) as Hkey.
  { intros cat Hcat%random_choice_Done. apply dict_get_key.
    by eapply list_elem_of_lookup_2. }
  split; [by intros ->|]. split; [|split; [|split]].
  - intros cat candidates Hnd Hi. unfold get_random_category_and_phrase.
    assert (random_choice (phrases.*1) r1 = Done cat) as ->.
    { apply random_choice_Done. by rewrite list_lookup_fmap, Hi. }
    cbn. rewrite (dict_get_lookup _ _ _ _ Hnd Hi). cbn.
    unfold random_choice. destruct (candidates !! r2); [by eexists|done].
  - intros e. unfold get_random_category_and_phrase.
    destruct (random_choice (phrases.*1) r1) as [cat|e'|] eqn:Hcat.
    + cbn -[dict_get]. destruct (Hkey cat eq_refl) as [candidates ->]. cbn.
      unfold random_choice. destruct (candidates !! r2); cbn; [done|congruence].
    + unfold random_choice in Hcat. destruct (_ !! r1); [done|].
      injection Hcat as <-. cbn. congruence.
    + done.
  - unfold get_random_category_and_phrase.
    destruct (random_choice (phrases.*1) r1) as [cat|e'|] eqn:Hcat.
    + cbn -[dict_get]. destruct (Hkey cat eq_refl) as [candidates ->]. cbn.
      unfold random_choice. by destruct (candidates !! r2).
    + done.
    + unfold random_choice in Hcat. by destruct (_ !! r1).
  - intros cat ph. apply get_random_category_and_phrase_drawn.
Qed.

(** ** Failures of the set-up *)

(** X18: what stops main before the first turn, and what does not.  With no
    player at all the set-up raises ValueError whatever the phrase and wheel
    files hold; with players and an empty catalogue it raises IndexError
    before the wheel is looked at; but an empty wheel file passes the
    set-up, and the game then fails with IndexError at the first spin, before
    any player is asked for a move. *)
Theorem X18_setup_failures names num_computer difficulty phrases wheel_data r1 r2 :
  (names = [] → num_computer = 0%nat →
     setup names num_computer difficulty phrases wheel_data r1 r2 = Raised ValueError) ∧
  ((names ≠ [] ∨ num_computer ≠ 0%nat) → phrases = [] →
     setup names num_computer difficulty phrases wheel_data r1 r2 = Raised IndexError) ∧
  (∀ st wheel,
     setup names num_computer difficulty phrases [] r1 r2 = Done (st, wheel) →
     wheel = [] ∧ ∀ r answers, loop_body wheel r answers st = Raised IndexError).
Proof.
  split; [|split].
  - by intros -> ->.
  - intros Hsome ->. unfold setup.
    rewrite bool_decide_eq_false_2; [done|].
    unfold new_players. intros [Hh Hc]%app_eq_nil.
    apply fmap_nil_inv in Hh. apply fmap_nil_inv in Hc.
    destruct Hsome as [?|Hnc]; [done|]. by destruct num_computer.
  - intros st wheel (cat & ph & _ & Hload & Hne & ->)%setup_Done.
    injection Hload as <-. split; [done|]. intros r answers.
    unfold loop_body, py_index. cbn [players player_index].
    by destruct (new_players names num_computer difficulty).
Qed.
